(** * Unstructured helpers (k8s.io/apimachinery/pkg/apis/meta/v1/unstructured/helpers.go)

    A shallow embedding of the nested-field accessors, the JSON scheme
    (Decode / Encode) and the no-op object converter, together with the
    properties of them that the specification states. *)

From stdpp Require Import gmap strings list fin_maps.
From Stdlib Require Import ZArith Ascii.

#[local] Set Warnings "-register-all".

(** ** Data model *)

(** The dynamic values held by a [map[string]interface{}]: the shapes that the
    JSON decoder produces and that [runtime.DeepCopyJSONValue] accepts.  A Go
    map is a [gmap]: keys are unique and lookup does not depend on insertion
    order.  A [float64] is kept as its 64-bit pattern, no arithmetic is done on
    it here.  Maps are allocated maps (the nil map is not a [jvalue]); the values
    are trees, without sharing between sub-maps, so that an in-place update of a
    sub-map is the update of the enclosing tree. *)
Inductive jvalue :=
| VNil
| VString (s : string)
| VBool (b : bool)
| VInt64 (n : Z)
| VFloat64 (bits : Z)
| VSlice (l : list jvalue)
| VMap (m : gmap string jvalue).

(** Run-time failures of the Go code. *)
Inductive panic :=
| SliceBoundsOutOfRange
| IndexOutOfRange
| NilPointerDereference.

(** A call either returns or panics. *)
Inductive outcome (A : Type) :=
| Returns (a : A)
| Panics (p : panic).
Arguments Returns {A} a.
Arguments Panics {A} p.

Definition is_map (v : jvalue) : bool :=
  match v with VMap _ => true | _ => false end.

Definition is_string (v : jvalue) : bool :=
  match v with VString _ => true | _ => false end.

(** Modelled from the spec: [runtime.DeepCopyJSONValue], the deep-copy
    capability ("produce a value with no aliasing to the input, recursively"):
    every mapping and every sequence is rebuilt, scalars are returned as they
    are. *)
Fixpoint DeepCopyJSONValue (x : jvalue) : jvalue :=
  match x with
  | VMap m => VMap (DeepCopyJSONValue <$> m)
  | VSlice l => VSlice (DeepCopyJSONValue <$> l)
  | _ => x
  end.

(** Number of constructors of a value, the measure for induction on values. *)
Fixpoint value_size (x : jvalue) : nat :=
  match x with
  | VMap m => S (map_fold (λ _ v acc, value_size v + acc) 0 m)
  | VSlice l => S (foldr (λ v acc, value_size v + acc) 0 l)
  | _ => 1
  end.

(** ** Nested field readers *)

(** The loop of [nestedFieldNoCopy], started at [val]. *)
Fixpoint nestedFieldNoCopy_from (val : jvalue) (fields : list string) : jvalue * bool :=
  match fields with
  | [] => (val, true)
  | field :: fields' =>
      match val with
      | VMap m =>
          match m !! field with
          | Some val' => nestedFieldNoCopy_from val' fields'
          | None => (VNil, false)
          end
      | _ => (VNil, false)
      end
  end.

Definition nestedFieldNoCopy (obj : gmap string jvalue) (fields : list string) : jvalue * bool :=
  nestedFieldNoCopy_from (VMap obj) fields.

(** [NestedFieldCopy], over the function [DeepCopy] that it calls on the value
    found: [runtime.DeepCopyJSONValue], a function of another package. *)
Definition NestedFieldCopy_with (DeepCopy : jvalue → jvalue)
    (obj : gmap string jvalue) (fields : list string) : jvalue * bool :=
  match nestedFieldNoCopy obj fields with
  | (val, true) => (DeepCopy val, true)
  | (_, false) => (VNil, false)
  end.

Definition NestedFieldCopy (obj : gmap string jvalue) (fields : list string) : jvalue * bool :=
  NestedFieldCopy_with DeepCopyJSONValue obj fields.

Definition NestedString (obj : gmap string jvalue) (fields : list string) : string * bool :=
  match nestedFieldNoCopy obj fields with
  | (VString s, true) => (s, true)
  | _ => (EmptyString, false)
  end.

(** The inner loop of [NestedStringSlice]: [strSlice] is the slice built so
    far. *)
Fixpoint NestedStringSlice_loop (m : list jvalue) (strSlice : list string) : list string * bool :=
  match m with
  | [] => (strSlice, true)
  | VString str :: m' => NestedStringSlice_loop m' (strSlice ++ [str])
  | _ :: _ => ([], false)
  end.

Definition NestedStringSlice (obj : gmap string jvalue) (fields : list string) : list string * bool :=
  match nestedFieldNoCopy obj fields with
  | (VSlice m, true) => NestedStringSlice_loop m []
  | _ => ([], false)
  end.

Definition getNestedString (obj : gmap string jvalue) (fields : list string) : string :=
  match NestedString obj fields with
  | (val, true) => val
  | (_, false) => EmptyString
  end.

(** ** Nested field writers *)

(** The loop of [setNestedFieldNoCopy] over [fields[:len(fields)-1]] followed by
    the final assignment [m[fields[len(fields)-1]] = value].  The cursor [m] of
    the Go code is the sub-map reached so far; what is written through it is
    written in the tree.  The maps are allocated maps: an assignment to an
    entry of a nil map, on which the Go code panics, does not occur here, so
    the properties of a set are stated of the calls that return. *)
Fixpoint setNestedFieldNoCopy_walk (m : gmap string jvalue) (value : jvalue)
    (init : list string) (final : string) : gmap string jvalue * bool :=
  match init with
  | [] => (<[final := value]> m, true)
  | field :: init' =>
      match m !! field with
      | Some (VMap valMap) =>
          let r := setNestedFieldNoCopy_walk valMap value init' final in
          (<[field := VMap r.1]> m, r.2)
      | Some _ => (m, false)
      | None =>
          let r := setNestedFieldNoCopy_walk ∅ value init' final in
          (<[field := VMap r.1]> m, r.2)
      end
  end.

Definition setNestedFieldNoCopy (obj : gmap string jvalue) (value : jvalue)
    (fields : list string) : outcome (gmap string jvalue * bool) :=
  match length fields with
  | 0 => Panics SliceBoundsOutOfRange
  | S n =>
      match fields !! n with
      | Some final => Returns (setNestedFieldNoCopy_walk obj value (take n fields) final)
      | None => Panics IndexOutOfRange
      end
  end.

(** [SetNestedField], over the function [DeepCopy] that it calls on the value
    before anything else: [runtime.DeepCopyJSONValue]. *)
Definition SetNestedField_with (DeepCopy : jvalue → jvalue)
    (obj : gmap string jvalue) (value : jvalue)
    (fields : list string) : outcome (gmap string jvalue * bool) :=
  setNestedFieldNoCopy obj (DeepCopy value) fields.

Definition SetNestedField (obj : gmap string jvalue) (value : jvalue)
    (fields : list string) : outcome (gmap string jvalue * bool) :=
  SetNestedField_with DeepCopyJSONValue obj value fields.

(** The loop of [RemoveNestedField] and the final [delete]. *)
Fixpoint RemoveNestedField_walk (m : gmap string jvalue) (init : list string)
    (final : string) : gmap string jvalue :=
  match init with
  | [] => delete final m
  | field :: init' =>
      match m !! field with
      | Some (VMap x) => <[field := VMap (RemoveNestedField_walk x init' final)]> m
      | _ => m
      end
  end.

Definition RemoveNestedField (obj : gmap string jvalue) (fields : list string)
    : outcome (gmap string jvalue) :=
  match length fields with
  | 0 => Panics SliceBoundsOutOfRange
  | S n =>
      match fields !! n with
      | Some final => Returns (RemoveNestedField_walk obj (take n fields) final)
      | None => Panics IndexOutOfRange
      end
  end.

(** The description of [set] in the specification, by recursion on the path:
    the last segment is assigned; before it, an absent segment gets a new empty
    mapping, a mapping is entered, anything else blocks the write. *)
Fixpoint spec_set (tree : gmap string jvalue) (copied : jvalue) (path : list string)
    : gmap string jvalue * bool :=
  match path with
  | [] => (tree, false)
  | segment :: rest =>
      match rest with
      | [] => (<[segment := copied]> tree, true)
      | _ :: _ =>
          match tree !! segment with
          | None =>
              let r := spec_set ∅ copied rest in (<[segment := VMap r.1]> tree, r.2)
          | Some (VMap sub) =>
              let r := spec_set sub copied rest in (<[segment := VMap r.1]> tree, r.2)
          | Some _ => (tree, false)
          end
      end
  end.

(** ** Go library functions used by the codec *)

(** [strings.HasSuffix] and [strings.TrimSuffix] of the Go library. *)
Definition HasSuffix (s suffix : string) : bool :=
  (String.length suffix <=? String.length s) &&
  String.eqb
    (String.substring (String.length s - String.length suffix) (String.length suffix) s)
    suffix.

Definition TrimSuffix (s suffix : string) : string :=
  if HasSuffix s suffix
  then String.substring 0 (String.length s - String.length suffix) s
  else s.

(** A byte slice, and its conversion [string(data)]. *)
Definition bytes : Type := list Byte.byte.

(** The errors that the functions of this file return. *)
Inductive error :=
| ExternalError (msg : string)        (* an error of the JSON package or of the writer *)
| MissingKindErr (data : string)      (* runtime.NewMissingKindErr(data) *)
| Errorf (msg : string).              (* fmt.Errorf *)

(** Sequencing of calls that may panic. *)
Global Instance outcome_ret : MRet outcome := λ A a, Returns a.
Global Instance outcome_bind : MBind outcome := λ A B f x,
  match x with
  | Returns a => f a
  | Panics p => Panics p
  end.

(** ** The dynamic object and the dynamic list *)

(** [Unstructured] and [UnstructuredList] (declared in unstructured.go and
    unstructured_list.go): a backing map, and for the list the separate slice
    of items. *)
Record Unstructured := { Object : gmap string jvalue }.

Record UnstructuredList := {
  List_Object : gmap string jvalue;
  Items : list Unstructured
}.

(** Modelled from the spec: the type descriptor accessors of [Unstructured] and
    [UnstructuredList] ("read/write kind and apiVersion on a Resource Object by
    well-known path", with the typed getters and setters of the path accessor).
    A getter reads the string at the path; a setter goes through
    [SetNestedField]. *)
Definition GetKind (obj : gmap string jvalue) : string :=
  getNestedString obj ["kind"].

Definition GetAPIVersion (obj : gmap string jvalue) : string :=
  getNestedString obj ["apiVersion"].

Definition Unstructured_setNestedField (u : Unstructured) (value : jvalue)
    (fields : list string) : outcome Unstructured :=
  r ← SetNestedField (Object u) value fields;
  mret {| Object := r.1 |}.

Definition SetKind (u : Unstructured) (kind : string) : outcome Unstructured :=
  Unstructured_setNestedField u (VString kind) ["kind"].

Definition SetAPIVersion (u : Unstructured) (version : string) : outcome Unstructured :=
  Unstructured_setNestedField u (VString version) ["apiVersion"].

(** [schema.GroupVersionKind]. *)
Record GroupVersionKind := { Group : string; Version : string; Kind : string }.

Definition empty_GroupVersionKind : GroupVersionKind :=
  {| Group := EmptyString; Version := EmptyString; Kind := EmptyString |}.

(** ** The codec *)

Section Codec.
(** [Other]: the objects of any other Go type that implements
    [runtime.Object]; [Writer]: the states of an [io.Writer]. *)
Context {Other Writer : Type}.

(** The argument of [Decode] and [Encode], by the cases of their type
    switches.  An object is the state of what the Go pointer points to; the
    pointers are not nil. *)
Inductive runtime_Object :=
| PUnstructured (u : Unstructured)
| PUnstructuredList (l : UnstructuredList)
| PVersionedObjects (Objects : list runtime_Object)
| POther (x : Other).

(** What this file takes from outside: the JSON package ([json.Unmarshal]
    at each of the target types it is called with, [json.NewEncoder(w).Encode]),
    the writer, and the type descriptors of the objects.  Unmarshalling into
    a local variable gives the variable's content or an error; unmarshalling
    into a target that outlives the call gives the target's new state and
    the error, if any. *)
Class External := {
  (* json.Unmarshal(data, &det), det of type struct{ Items RawMessage }:
     det.Items, None when it stays nil *)
  Unmarshal_detector : bytes → error + option bytes;
  (* json.Unmarshal(data, &dList), dList of type struct{ Items []RawMessage } *)
  Unmarshal_decodeList : bytes → error + list bytes;
  (* json.Unmarshal(data, &m), m a map[string]interface{} holding [m] before *)
  Unmarshal_map : bytes → gmap string jvalue → gmap string jvalue * option error;
  (* json.Unmarshal(data, x), x of another type *)
  Unmarshal_other : bytes → Other → Other * option error;
  (* json.NewEncoder(w).Encode(v), v a map[string]interface{} *)
  Encode_map : gmap string jvalue → Writer → Writer * option error;
  (* json.NewEncoder(w).Encode(t), t of another type *)
  Encode_object : runtime_Object → Writer → Writer * option error;
  (* w.Write(raw) *)
  Write : bytes → Writer → Writer * option error;
  (* Some raw when the object is a *runtime.Unknown holding Raw = raw *)
  Unknown_Raw : Other → option bytes;
  (* schema.ParseGroupVersion *)
  ParseGroupVersion : string → option (string * string);
  (* x.GetObjectKind().GroupVersionKind(), x of another type *)
  GroupVersionKind_other : Other → GroupVersionKind
}.

Context {ext : External}.

(** Modelled from the spec: [GetObjectKind().GroupVersionKind()] of the
    dynamic object and list ("get/set the full group-version-kind triple"):
    group and version come from the apiVersion string, the kind is the kind
    string; an apiVersion that does not parse gives the empty descriptor.
    For [runtime.VersionedObjects] it is the descriptor of the last object,
    the empty one if there is none. *)
Definition Unstructured_GroupVersionKind (obj : gmap string jvalue) : GroupVersionKind :=
  match ParseGroupVersion (GetAPIVersion obj) with
  | Some (g, v) => {| Group := g; Version := v; Kind := GetKind obj |}
  | None => empty_GroupVersionKind
  end.

Fixpoint Object_GroupVersionKind (obj : runtime_Object) : GroupVersionKind :=
  match obj with
  | PUnstructured u => Unstructured_GroupVersionKind (Object u)
  | PUnstructuredList l => Unstructured_GroupVersionKind (List_Object l)
  | PVersionedObjects objs =>
      (fix last_kind (os : list runtime_Object) : GroupVersionKind :=
         match os with
         | [] => empty_GroupVersionKind
         | o :: os' =>
             match os' with
             | [] => Object_GroupVersionKind o
             | _ :: _ => last_kind os'
             end
         end) objs
  | POther x => GroupVersionKind_other x
  end.

Definition decodeToUnstructured (data : bytes) (unstruct : Unstructured)
    : Unstructured * option error :=
  match Unmarshal_map data ∅ with
  | (_, Some err) => (unstruct, Some err)
  | (m, None) => ({| Object := m |}, None)
  end.

(** The loop of [decodeToList] over [dList.Items]; [items] is [list.Items] so
    far.  It stops at the first item that does not decode. *)
Fixpoint decodeToList_items (dItems : list bytes) (itemKind listAPIVersion : string)
    (items : list Unstructured) : outcome (list Unstructured * option error) :=
  match dItems with
  | [] => mret (items, None)
  | i :: dItems' =>
      match decodeToUnstructured i {| Object := ∅ |} with
      | (_, Some err) => mret (items, Some err)
      | (unstruct, None) =>
          unstruct' ←
            (if (String.length (GetKind (Object unstruct)) =? 0) &&
                (String.length (GetAPIVersion (Object unstruct)) =? 0)
             then u ← SetKind unstruct itemKind; SetAPIVersion u listAPIVersion
             else mret unstruct);
          decodeToList_items dItems' itemKind listAPIVersion (items ++ [unstruct'])
      end
  end.

Definition decodeToList (data : bytes) (list : UnstructuredList)
    : outcome (UnstructuredList * option error) :=
  match Unmarshal_decodeList data with
  | inl err => mret (list, Some err)
  | inr dItems =>
      match Unmarshal_map data (List_Object list) with
      | (obj, Some err) =>
          mret ({| List_Object := obj; Items := Items list |}, Some err)
      | (obj, None) =>
          let listAPIVersion := GetAPIVersion obj in
          let listKind := GetKind obj in
          let itemKind := TrimSuffix listKind "List" in
          r ← decodeToList_items dItems itemKind listAPIVersion [];
          mret ({| List_Object := delete "items" obj; Items := r.1 |}, r.2)
      end
  end.

(** What [decode] returns: [nil, err], or an object with the error of its
    decoding, if any. *)
Inductive decoded :=
| NilWith (err : error)
| ObjectWith (obj : runtime_Object) (err : option error).

Definition decode (data : bytes) : outcome decoded :=
  match Unmarshal_detector data with
  | inl err => mret (NilWith err)
  | inr (Some _) =>
      r ← decodeToList data {| List_Object := ∅; Items := [] |};
      mret (ObjectWith (PUnstructuredList r.1) r.2)
  | inr None =>
      let r := decodeToUnstructured data {| Object := ∅ |} in
      mret (ObjectWith (PUnstructured r.1) r.2)
  end.

(** [decodeInto] gives the new state of [obj] and the error. *)
Definition decodeInto (data : bytes) (obj : runtime_Object)
    : outcome (runtime_Object * option error) :=
  match obj with
  | PUnstructured x =>
      let r := decodeToUnstructured data x in mret (PUnstructured r.1, r.2)
  | PUnstructuredList x =>
      r ← decodeToList data x; mret (PUnstructuredList r.1, r.2)
  | PVersionedObjects Objects =>
      r ← decode data;
      match r with
      | ObjectWith o None => mret (PVersionedObjects [o], None)
      | ObjectWith _ (Some err) => mret (PVersionedObjects Objects, Some err)
      | NilWith err => mret (PVersionedObjects Objects, Some err)
      end
  | POther x =>
      let r := Unmarshal_other data x in mret (POther r.1, r.2)
  end.

(** The three results of [Decode], and [into_after], the state in which the
    call leaves the object it was given (none if it was given nil). *)
Record DecodeResult := {
  ret_obj : option runtime_Object;
  ret_gvk : option GroupVersionKind;
  ret_err : option error;
  into_after : option runtime_Object
}.

(** The first half of [Decode]: [decodeInto] the given object, or [decode]
    a new one.  The result is [obj], [err] and the state of the given
    object. *)
Definition Decode_parse (data : bytes) (obj : option runtime_Object)
    : outcome (option runtime_Object * option error * option runtime_Object) :=
  match obj with
  | Some o =>
      r ← decodeInto data o; mret (Some r.1, r.2, Some r.1)
  | None =>
      r ← decode data;
      match r with
      | NilWith err => mret (None, Some err, None)
      | ObjectWith o err => mret (Some o, err, None)
      end
  end.

Definition Decode (data : bytes) (obj : option runtime_Object) : outcome DecodeResult :=
  r ← Decode_parse data obj;
  match r with
  | (_, Some err, into) =>
      mret {| ret_obj := None; ret_gvk := None; ret_err := Some err;
              into_after := into |}
  | (None, None, _) => Panics NilPointerDereference
  | (Some obj, None, into) =>
      let gvk := Object_GroupVersionKind obj in
      if String.length (Kind gvk) =? 0
      then mret {| ret_obj := None; ret_gvk := Some gvk;
                   ret_err := Some (MissingKindErr (String.string_of_list_byte data));
                   into_after := into |}
      else mret {| ret_obj := Some obj; ret_gvk := Some gvk; ret_err := None;
                   into_after := into |}
  end.

(** The two maps at work in the list case of [Encode]: the list's own map
    [t.Object], and the local map [listObj]. *)
Record Encode_maps := {
  t_Object : gmap string jvalue;
  listObj : gmap string jvalue
}.

(** The list case of [Encode] up to the call of the encoder: [items] collects
    the backing maps of the items; [listObj] is made empty, gets the entries
    of [t.Object] one by one and then the key "items".  Every assignment is to
    [listObj]. *)
Definition Encode_list (t : UnstructuredList) : Encode_maps :=
  let items := foldl (λ items i, items ++ [VMap (Object i)]) [] (Items t) in
  let s := {| t_Object := List_Object t; listObj := ∅ |} in
  let s := map_fold (λ k v s, {| t_Object := t_Object s;
                                 listObj := <[k := v]> (listObj s) |})
                    s (t_Object s) in
  {| t_Object := t_Object s; listObj := <["items" := VSlice items]> (listObj s) |}.

(** The map that [Encode] serializes for a list. *)
Definition Encode_listObj (t : UnstructuredList) : gmap string jvalue :=
  listObj (Encode_list t).

(** [Encode] gives the state in which the call leaves the object it was given,
    and what the encoder or the writer returned. *)
Definition Encode (obj : runtime_Object) (w : Writer)
    : runtime_Object * (Writer * option error) :=
  match obj with
  | PUnstructured t => (obj, Encode_map (Object t) w)
  | PUnstructuredList t =>
      let s := Encode_list t in
      (PUnstructuredList {| List_Object := t_Object s; Items := Items t |},
       Encode_map (listObj s) w)
  | POther x =>
      match Unknown_Raw x with
      | Some Raw => (obj, Write Raw w)
      | None => (obj, Encode_object obj w)
      end
  | PVersionedObjects _ => (obj, Encode_object obj w)
  end.
End Codec.

Arguments runtime_Object : clear implicits.
Arguments External : clear implicits.
Arguments decoded : clear implicits.
Arguments DecodeResult : clear implicits.

(** ** The object converter *)

(** [Convert] assigns a map, which in Go is a reference to the map's storage,
    so the converter is modelled over a heap: [objects] gives, for the address
    of each [Unstructured], its field [Object], a reference to a map or nil;
    [maps] gives the content of each map. *)
Definition loc := positive.

Record heap := {
  objects : gmap loc (option loc);
  maps : gmap loc (gmap string jvalue)
}.

(** An [interface{}] argument of [Convert]: nil, a [*Unstructured] (the nil
    pointer or an address), or a value of another dynamic type, of which only
    the name that [%T] prints matters. *)
Inductive iface :=
| INil
| IUnstructured (p : option loc)
| IOtherType (T : string).

(** What [%T] prints. *)
Definition type_name (i : iface) : string :=
  match i with
  | INil => "<nil>"
  | IUnstructured _ => "*unstructured.Unstructured"
  | IOtherType T => T
  end.

(** The type assertion of [i] to a pointer to [Unstructured]. *)
Definition as_Unstructured (i : iface) : option loc * bool :=
  match i with
  | IUnstructured p => (p, true)
  | _ => (None, false)
  end.

(** Reading and writing the field [Object] through a pointer. *)
Definition load_Object (h : heap) (p : option loc) : outcome (option loc) :=
  match p with
  | None => Panics NilPointerDereference
  | Some a =>
      match objects h !! a with
      | Some r => Returns r
      | None => Panics NilPointerDereference
      end
  end.

Definition store_Object (h : heap) (p : option loc) (r : option loc) : outcome heap :=
  match p with
  | None => Panics NilPointerDereference
  | Some a =>
      match objects h !! a with
      | Some _ => Returns {| objects := <[a := r]> (objects h); maps := maps h |}
      | None => Panics NilPointerDereference
      end
  end.

Definition Convert (h : heap) (in_ out context : iface) : outcome (heap * option error) :=
  match as_Unstructured in_ with
  | (_, false) =>
      mret (h, Some (Errorf ("input type " +:+ type_name in_ +:+
                             " in not valid for unstructured conversion")))
  | (unstructIn, true) =>
      match as_Unstructured out with
      | (_, false) =>
          mret (h, Some (Errorf ("output type " +:+ type_name out +:+
                                 " in not valid for unstructured conversion")))
      | (unstructOut, true) =>
          r ← load_Object h unstructIn;
          h' ← store_Object h unstructOut r;
          mret (h', None)
      end
  end.

(** An [interface{}] that holds the address of an [Unstructured] of the heap. *)
Definition is_Unstructured (h : heap) (i : iface) : Prop :=
  ∃ a, i = IUnstructured (Some a) ∧ is_Some (objects h !! a).

(** ** Sample payloads

    The JSON package is outside this file; for the examples its results are
    fixed on the payloads of the specification: an object without kind, an
    item with a kind, and a list of the two. *)

(** [json_text] writes a payload with ['] for the double quote. *)
Fixpoint json_text (s : string) : string :=
  match s with
  | EmptyString => EmptyString
  | String c s' =>
      String (if Ascii.eqb c "'"%char then Ascii.ascii_of_nat 34 else c) (json_text s')
  end.

Definition payload_a : bytes :=
  String.list_byte_of_string (json_text "{'metadata':{'name':'a'}}").

Definition payload_b : bytes :=
  String.list_byte_of_string (json_text "{'kind':'Node','metadata':{'name':'b'}}").

Definition payload_list : bytes :=
  String.list_byte_of_string (json_text
    "{'kind':'PodList','apiVersion':'v1','items':[{'metadata':{'name':'a'}},{'kind':'Node','metadata':{'name':'b'}}]}").

Definition object_a : gmap string jvalue :=
  {[ "metadata" := VMap {[ "name" := VString "a" ]} ]}.

Definition object_b : gmap string jvalue :=
  {[ "kind" := VString "Node"; "metadata" := VMap {[ "name" := VString "b" ]} ]}.

Definition object_list : gmap string jvalue :=
  {[ "kind" := VString "PodList"; "apiVersion" := VString "v1";
     "items" := VSlice [VMap object_a; VMap object_b] ]}.

Definition same_bytes (x y : bytes) : bool :=
  String.eqb (String.string_of_list_byte x) (String.string_of_list_byte y).

Definition sample_parse (data : bytes) : option (gmap string jvalue) :=
  if same_bytes data payload_a then Some object_a
  else if same_bytes data payload_b then Some object_b
  else if same_bytes data payload_list then Some object_list
  else None.

(** The JSON package on the sample payloads: a decoded object is merged into
    the target map, its entries replacing those of the same key. *)
Definition sample_External : External Empty_set bytes := {|
  Unmarshal_detector data :=
    match sample_parse data with
    | Some m =>
        inr (if same_bytes data payload_list
             then Some (String.list_byte_of_string (json_text
                    "[{'metadata':{'name':'a'}},{'kind':'Node','metadata':{'name':'b'}}]"))
             else None)
    | None => inl (ExternalError "invalid character")
    end;
  Unmarshal_decodeList data :=
    match sample_parse data with
    | Some m => inr (if same_bytes data payload_list then [payload_a; payload_b] else [])
    | None => inl (ExternalError "invalid character")
    end;
  Unmarshal_map data m :=
    match sample_parse data with
    | Some m' => (m' ∪ m, None)
    | None => (m, Some (ExternalError "invalid character"))
    end;
  Unmarshal_other data x := (x, Some (ExternalError "unsupported target"));
  Encode_map m w := (w, Some (ExternalError "unsupported value"));
  Encode_object t w := (w, Some (ExternalError "unsupported value"));
  Write raw w := (w ++ raw, None);
  Unknown_Raw x := None;
  ParseGroupVersion s := Some (EmptyString, s);
  GroupVersionKind_other x := empty_GroupVersionKind
|}.

(** A heap with two dynamic objects, each with its own map. *)
Definition sample_heap : heap := {|
  objects := {[ 1%positive := Some 10%positive; 2%positive := Some 20%positive ]};
  maps := {[ 10%positive := object_a; 20%positive := object_b ]}
|}.

(** ** Statements of the specification *)

(** The item that the list decoder stores for a decoded item map [m]: with
    kind and apiVersion both empty they are set from the list, otherwise the
    map is kept as it is. *)
Definition infer_item (itemKind listAPIVersion : string) (m : gmap string jvalue)
    : Unstructured :=
  if (String.length (GetKind m) =? 0) && (String.length (GetAPIVersion m) =? 0)
  then {| Object := <["apiVersion" := VString listAPIVersion]>
                      (<["kind" := VString itemKind]> m) |}
  else {| Object := m |}.

(** The backing maps of the items, in order, as [Encode] puts them under
    "items". *)
Definition item_objects (items : list Unstructured) : list jvalue :=
  (λ i, VMap (Object i)) <$> items.

(** ** The other typed readers and writers *)

Definition NestedBool (obj : gmap string jvalue) (fields : list string) : bool * bool :=
  match nestedFieldNoCopy obj fields with
  | (VBool b, true) => (b, true)
  | _ => (false, false)
  end.

Definition NestedFloat64 (obj : gmap string jvalue) (fields : list string) : Z * bool :=
  match nestedFieldNoCopy obj fields with
  | (VFloat64 f, true) => (f, true)
  | _ => (0%Z, false)
  end.

Definition NestedInt64 (obj : gmap string jvalue) (fields : list string) : Z * bool :=
  match nestedFieldNoCopy obj fields with
  | (VInt64 i, true) => (i, true)
  | _ => (0%Z, false)
  end.

(** [NestedSlice] returns the deep copy of the slice, asserted to be a slice:
    the copy of a slice is the slice of the copies of its elements. *)
Definition NestedSlice (obj : gmap string jvalue) (fields : list string)
    : list jvalue * bool :=
  match nestedFieldNoCopy obj fields with
  | (VSlice l, true) => (DeepCopyJSONValue <$> l, true)
  | _ => ([], false)
  end.

Definition nestedMapNoCopy (obj : gmap string jvalue) (fields : list string)
    : gmap string jvalue * bool :=
  match nestedFieldNoCopy obj fields with
  | (VMap m, true) => (m, true)
  | _ => (∅, false)
  end.

(** Modelled from the spec: [runtime.DeepCopyJSON], the deep copy of a map. *)
Definition DeepCopyJSON (x : gmap string jvalue) : gmap string jvalue :=
  DeepCopyJSONValue <$> x.

Definition NestedMap (obj : gmap string jvalue) (fields : list string)
    : gmap string jvalue * bool :=
  match nestedMapNoCopy obj fields with
  | (m, true) => (DeepCopyJSON m, true)
  | (_, false) => (∅, false)
  end.

(** The loop of [NestedStringMap] over the entries of [m]: the map of strings,
    or nothing when the loop returns at an entry that is not a string.  The
    entries are visited in no fixed order, which does not change the result. *)
Definition NestedStringMap_loop (m : gmap string jvalue) : option (gmap string string) :=
  map_fold (λ k v strMap,
              match strMap, v with
              | Some strMap, VString str => Some (<[k := str]> strMap)
              | _, _ => None
              end)
           (Some ∅) m.

Definition NestedStringMap (obj : gmap string jvalue) (fields : list string)
    : gmap string string * bool :=
  match nestedMapNoCopy obj fields with
  | (m, true) =>
      match NestedStringMap_loop m with
      | Some strMap => (strMap, true)
      | None => (∅, false)
      end
  | (_, false) => (∅, false)
  end.

Definition SetNestedStringSlice (obj : gmap string jvalue) (value : list string)
    (fields : list string) : outcome (gmap string jvalue * bool) :=
  let m := foldl (λ m v, m ++ [VString v]) [] value in
  setNestedFieldNoCopy obj (VSlice m) fields.

Definition SetNestedSlice (obj : gmap string jvalue) (value : list jvalue)
    (fields : list string) : outcome (gmap string jvalue * bool) :=
  SetNestedField obj (VSlice value) fields.

Definition SetNestedStringMap (obj : gmap string jvalue) (value : gmap string string)
    (fields : list string) : outcome (gmap string jvalue * bool) :=
  let m := map_fold (λ k v m, <[k := VString v]> m) (∅ : gmap string jvalue) value in
  setNestedFieldNoCopy obj (VMap m) fields.

Definition SetNestedMap (obj : gmap string jvalue) (value : gmap string jvalue)
    (fields : list string) : outcome (gmap string jvalue * bool) :=
  SetNestedField obj (VMap value) fields.

(** ** Owner references *)

(** [metav1.OwnerReference] (declared in meta/v1/types.go); the two flags are
    pointers to a bool, nil when the flag is not given. *)
Record OwnerReference := {
  Owner_APIVersion : string;
  Owner_Kind : string;
  Owner_Name : string;
  Owner_UID : string;
  Owner_Controller : option bool;
  Owner_BlockOwnerDeletion : option bool
}.

Definition extractOwnerReference (v : gmap string jvalue) : OwnerReference :=
  let controllerPtr :=
    match NestedBool v ["controller"] with
    | (controller, true) => Some controller
    | (_, false) => None
    end in
  let blockOwnerDeletionPtr :=
    match NestedBool v ["blockOwnerDeletion"] with
    | (blockOwnerDeletion, true) => Some blockOwnerDeletion
    | (_, false) => None
    end in
  {| Owner_Kind := getNestedString v ["kind"];
     Owner_Name := getNestedString v ["name"];
     Owner_APIVersion := getNestedString v ["apiVersion"];
     Owner_UID := getNestedString v ["uid"];
     Owner_Controller := controllerPtr;
     Owner_BlockOwnerDeletion := blockOwnerDeletionPtr |}.

(** ** Paths that part *)


(** A tree with two branches, for the examples. *)
Definition sample_tree : gmap string jvalue :=
  {[ "metadata" := VMap {[ "name" := VString "a";
                           "labels" := VMap {[ "app" := VString "web" ]} ]};
     "spec" := VMap {[ "replicas" := VInt64 3 ]} ]}.

(** A list payload whose second item is a number, which is JSON and is not an
    object, and the JSON package that also knows this payload. *)
Definition payload_number : bytes := String.list_byte_of_string "7".

Definition payload_mixed_list : bytes :=
  String.list_byte_of_string (json_text
    "{'kind':'PodList','apiVersion':'v1','items':[{'metadata':{'name':'a'}},7]}").

Definition object_mixed_list : gmap string jvalue :=
  {[ "kind" := VString "PodList"; "apiVersion" := VString "v1";
     "items" := VSlice [VMap object_a; VInt64 7] ]}.

Definition sample_External_mixed : External Empty_set bytes := {|
  Unmarshal_detector data :=
    if same_bytes data payload_mixed_list
    then inr (Some (String.list_byte_of_string (json_text
                      "[{'metadata':{'name':'a'}},7]")))
    else Unmarshal_detector (External := sample_External) data;
  Unmarshal_decodeList data :=
    if same_bytes data payload_mixed_list
    then inr [payload_a; payload_number]
    else Unmarshal_decodeList (External := sample_External) data;
  Unmarshal_map data m :=
    if same_bytes data payload_mixed_list then (object_mixed_list ∪ m, None)
    else if same_bytes data payload_number
    then (m, Some (ExternalError "cannot unmarshal number into map"))
    else Unmarshal_map (External := sample_External) data m;
  Unmarshal_other := Unmarshal_other (External := sample_External);
  Encode_map := Encode_map (External := sample_External);
  Encode_object := Encode_object (External := sample_External);
  Write := Write (External := sample_External);
  Unknown_Raw := Unknown_Raw (External := sample_External);
  ParseGroupVersion := ParseGroupVersion (External := sample_External);
  GroupVersionKind_other := GroupVersionKind_other (External := sample_External)
|}.

(** * Properties *)

(** ** Values *)

Lemma value_size_VMap (m : gmap string jvalue) :
  value_size (VMap m) = S (map_fold (λ _ v acc, value_size v + acc) 0 m).
Proof. reflexivity. Qed.

Lemma value_size_VSlice (l : list jvalue) :
  value_size (VSlice l) = S (foldr (λ v acc, value_size v + acc) 0 l).
Proof. reflexivity. Qed.

Lemma value_size_lookup (m : gmap string jvalue) (k : string) (v : jvalue) :
  m !! k = Some v → value_size v < value_size (VMap m).
Proof.
  intros Hk. rewrite value_size_VMap.
  rewrite (map_fold_delete_L _ _ k v m); [lia | intros; lia | exact Hk].
Qed.

Lemma value_size_elem (l : list jvalue) (v : jvalue) :
  v ∈ l → value_size v < value_size (VSlice l).
Proof.
  rewrite value_size_VSlice. induction 1 as [v l | v w l _ IH]; cbn [foldr]; lia.
Qed.

Lemma DeepCopyJSONValue_VMap (m : gmap string jvalue) :
  DeepCopyJSONValue (VMap m) = VMap (DeepCopyJSONValue <$> m).
Proof. reflexivity. Qed.

Lemma DeepCopyJSONValue_VSlice (l : list jvalue) :
  DeepCopyJSONValue (VSlice l) = VSlice (DeepCopyJSONValue <$> l).
Proof. reflexivity. Qed.

(** A deep copy is structurally equal to its source. *)
Lemma DeepCopyJSONValue_eq (x : jvalue) : DeepCopyJSONValue x = x.
Proof.
  remember (value_size x) as n eqn:Hn.
  revert x Hn. induction n as [n IH] using lt_wf_ind. intros x ->.
  destruct x as [| | | | | l | m]; try reflexivity.
  - rewrite DeepCopyJSONValue_VSlice. f_equal.
    rewrite <- (list_fmap_id l) at 2. apply list_fmap_ext.
    intros i v Hv. apply (IH (value_size v)); [| reflexivity].
    apply value_size_elem. by eapply list_elem_of_lookup_2.
  - rewrite DeepCopyJSONValue_VMap. f_equal.
    apply map_eq. intros k. rewrite lookup_fmap.
    destruct (m !! k) as [v |] eqn:Hk; [| reflexivity].
    cbn [fmap option_fmap option_map]. f_equal.
    apply (IH (value_size v)); [| reflexivity].
    by eapply value_size_lookup.
Qed.

(** ** Paths: the last segment and the segments before it *)

Lemma fields_snoc_inv (fields : list string) :
  fields ≠ [] → ∃ init final, fields = init ++ [final].
Proof.
  destruct fields as [| final init _] using rev_ind; [done |]. eauto.
Qed.

Lemma setNestedFieldNoCopy_snoc obj value (init : list string) final :
  setNestedFieldNoCopy obj value (init ++ [final])
  = Returns (setNestedFieldNoCopy_walk obj value init final).
Proof.
  unfold setNestedFieldNoCopy. rewrite length_app, Nat.add_1_r.
  rewrite lookup_app_r, Nat.sub_diag by lia. cbn [lookup list_lookup].
  by rewrite take_app_length.
Qed.

Lemma RemoveNestedField_snoc obj (init : list string) final :
  RemoveNestedField obj (init ++ [final])
  = Returns (RemoveNestedField_walk obj init final).
Proof.
  unfold RemoveNestedField. rewrite length_app, Nat.add_1_r.
  rewrite lookup_app_r, Nat.sub_diag by lia. cbn [lookup list_lookup].
  by rewrite take_app_length.
Qed.

(** ** The walk of [setNestedFieldNoCopy] *)

Lemma setNestedFieldNoCopy_walk_empty value (init : list string) final :
  (setNestedFieldNoCopy_walk ∅ value init final).2 = true.
Proof.
  induction init as [| field init IH]; [reflexivity |].
  cbn [setNestedFieldNoCopy_walk]. rewrite lookup_empty. exact IH.
Qed.

Lemma setNestedFieldNoCopy_walk_spec m value (init : list string) final :
  setNestedFieldNoCopy_walk m value init final = spec_set m value (init ++ [final]).
Proof.
  revert m. induction init as [| field init IH]; intros m; [reflexivity |].
  cbn [setNestedFieldNoCopy_walk app spec_set].
  destruct (init ++ [final]) as [| s rest] eqn:Hrest.
  { by destruct init. }
  destruct (m !! field) as [[| | | | | |valMap] |]; try reflexivity;
    by rewrite IH.
Qed.

Lemma setNestedFieldNoCopy_walk_blocked m value (init : list string) final :
  (setNestedFieldNoCopy_walk m value init final).2 = false →
  (setNestedFieldNoCopy_walk m value init final).1 = m ∧
  ∃ i x, i < length init ∧
         nestedFieldNoCopy_from (VMap m) (take (S i) init) = (x, true) ∧
         is_map x = false.
Proof.
  revert m. induction init as [| field init IH]; intros m; [done |].
  cbn [setNestedFieldNoCopy_walk].
  destruct (m !! field) as [v |] eqn:Hf.
  - destruct v as [| s | b | n | bits | l | valMap];
      try (intros _; split; [reflexivity |]; exists 0; eexists;
           cbn [length take nestedFieldNoCopy_from]; rewrite Hf;
           split; [lia | split; reflexivity]).
    cbn [fst snd]. intros Hr. destruct (IH _ Hr) as (Heq & i & x & Hi & Hx & Hm).
    split.
    + rewrite Heq. by apply insert_id.
    + exists (S i), x. cbn [length]. split; [lia |]. split; [| exact Hm].
      change (take (S (S i)) (field :: init)) with (field :: take (S i) init).
      cbn [nestedFieldNoCopy_from]. by rewrite Hf.
  - cbn [snd]. by rewrite setNestedFieldNoCopy_walk_empty.
Qed.

Lemma setNestedFieldNoCopy_walk_passed m value (init : list string) final :
  (setNestedFieldNoCopy_walk m value init final).2 = true →
  ∀ i x, i < length init →
         nestedFieldNoCopy_from (VMap m) (take (S i) init) = (x, true) →
         is_map x = true.
Proof.
  revert m. induction init as [| field init IH]; intros m Hr i x Hi.
  { cbn in Hi. lia. }
  change (take (S i) (field :: init)) with (field :: take i init).
  cbn [nestedFieldNoCopy_from]. cbn [setNestedFieldNoCopy_walk] in Hr.
  destruct (m !! field) as [v |] eqn:Hf; [| done].
  destruct v as [| s | b | n | bits | l | valMap]; try done.
  cbn [snd] in Hr. destruct i as [| i].
  - cbn [take nestedFieldNoCopy_from]. by intros [= <-].
  - cbn [length] in Hi. apply (IH _ Hr); lia.
Qed.

Lemma setNestedFieldNoCopy_walk_lookup m value (init : list string) final :
  (setNestedFieldNoCopy_walk m value init final).2 = true →
  nestedFieldNoCopy_from
    (VMap (setNestedFieldNoCopy_walk m value init final).1) (init ++ [final])
  = (value, true).
Proof.
  revert m. induction init as [| field init IH]; intros m.
  { intros _. cbn. by rewrite lookup_insert_eq. }
  cbn [setNestedFieldNoCopy_walk app].
  destruct (m !! field) as [v |] eqn:Hf.
  - destruct v as [| s | b | n | bits | l | valMap]; try done.
    cbn [fst snd nestedFieldNoCopy_from]. rewrite lookup_insert_eq. apply IH.
  - cbn [fst snd nestedFieldNoCopy_from]. rewrite lookup_insert_eq. apply IH.
Qed.

(** ** The walk of [RemoveNestedField] *)

Lemma RemoveNestedField_walk_lookup m (init : list string) final x :
  nestedFieldNoCopy_from (VMap m) (init ++ [final]) = (x, true) →
  (nestedFieldNoCopy_from
     (VMap (RemoveNestedField_walk m init final)) (init ++ [final])).2 = false.
Proof.
  revert m. induction init as [| field init IH]; intros m.
  { intros _. cbn. by rewrite lookup_delete_eq. }
  cbn [app nestedFieldNoCopy_from RemoveNestedField_walk].
  destruct (m !! field) as [v |] eqn:Hf; [| done].
  destruct v as [| s | b | n | bits | l | sub];
    try (destruct init; by cbn).
  intros Hx. cbn [nestedFieldNoCopy_from]. rewrite lookup_insert_eq.
  by apply IH.
Qed.

(** ** The loop of [NestedStringSlice] *)

Lemma NestedStringSlice_loop_found (m : list jvalue) (acc strs : list string) :
  NestedStringSlice_loop m acc = (strs, true) ↔
  ∃ tl, m = VString <$> tl ∧ strs = acc ++ tl.
Proof.
  revert acc. induction m as [| v m IH]; intros acc; cbn [NestedStringSlice_loop].
  - split.
    + intros [= <-]. exists []. by rewrite app_nil_r.
    + intros ([| ? ?] & Hm & ->); [by rewrite app_nil_r | done].
  - destruct v as [| s | b | n | bits | l | sub];
      try (split; [done | intros ([| ? ?] & Hm & _); done]).
    rewrite IH. split.
    + intros (tl & -> & ->). exists (s :: tl). by rewrite <- app_assoc.
    + intros ([| s' tl] & Hm & ->); [done |]. injection Hm as -> ->.
      exists tl. by rewrite <- app_assoc.
Qed.

Lemma NestedStringSlice_loop_not_string (m : list jvalue) (acc : list string) :
  (∃ v, v ∈ m ∧ is_string v = false) →
  NestedStringSlice_loop m acc = ([], false).
Proof.
  revert acc. induction m as [| w m IH]; intros acc (v & Hv & Hs).
  { by apply elem_of_nil in Hv. }
  cbn [NestedStringSlice_loop].
  destruct w as [| s | b | n | bits | l | sub]; try reflexivity.
  apply IH. exists v. split; [| exact Hs].
  apply elem_of_cons in Hv as [-> | Hv]; [done | exact Hv].
Qed.

Lemma NestedStringSlice_loop_not_found (m : list jvalue) (acc strs : list string) :
  NestedStringSlice_loop m acc = (strs, false) → strs = [].
Proof.
  revert acc. induction m as [| w m IH]; intros acc; cbn [NestedStringSlice_loop].
  { done. }
  destruct w as [| s | b | n | bits | l | sub]; try by intros [= <-].
  apply IH.
Qed.

(** ** The nested field accessors *)

(** C3, as the code has it: with a zero-length path [SetNestedField] and
    [RemoveNestedField] panic, for every tree and value and whatever the copy
    of the value is: the slice expression [fields[:len(fields)-1]] is out of
    range, and nothing is reported through a result. *)
Theorem empty_path_panics (DeepCopy : jvalue → jvalue) (obj : gmap string jvalue)
    (value : jvalue) :
  SetNestedField_with DeepCopy obj value [] = Panics SliceBoundsOutOfRange ∧
  SetNestedField obj value [] = Panics SliceBoundsOutOfRange ∧
  RemoveNestedField obj [] = Panics SliceBoundsOutOfRange.
Proof.
  unfold SetNestedField, SetNestedField_with, setNestedFieldNoCopy, RemoveNestedField.
  cbn [length]. by repeat split.
Qed.

(** C3, the claim as stated fails: on the empty tree, the zero-length path
    makes both calls panic. *)
Lemma empty_path_panics_example :
  SetNestedField ∅ (VString "v") [] = Panics SliceBoundsOutOfRange ∧
  RemoveNestedField ∅ [] = Panics SliceBoundsOutOfRange.
Proof. split; reflexivity. Qed.

(** C4: for a non-empty path, a call of [SetNestedField] that returns has
    done the [set] of the specification on the copy that [DeepCopy] made of
    the value, whatever function [DeepCopy] is.  When it returns false the tree
    is as before and some segment before the last holds a value that is not a
    mapping; when it returns true the copy is read back at the path and every
    segment before the last that was present held a mapping. *)
Theorem SetNestedField_spec (DeepCopy : jvalue → jvalue) (obj obj' : gmap string jvalue)
    (value : jvalue) (fields : list string) (ok : bool) :
  fields ≠ [] →
  SetNestedField_with DeepCopy obj value fields = Returns (obj', ok) →
  (obj', ok) = spec_set obj (DeepCopy value) fields ∧
  (ok = false →
     obj' = obj ∧
     ∃ i x, i < length fields - 1 ∧
            nestedFieldNoCopy obj (take (S i) fields) = (x, true) ∧
            is_map x = false) ∧
  (ok = true →
     nestedFieldNoCopy obj' fields = (DeepCopy value, true) ∧
     ∀ i x, i < length fields - 1 →
            nestedFieldNoCopy obj (take (S i) fields) = (x, true) →
            is_map x = true).
Proof.
  intros [init [final ->]]%fields_snoc_inv. unfold SetNestedField_with.
  rewrite setNestedFieldNoCopy_snoc. intros [= Hw]. split.
  { by rewrite <- Hw, setNestedFieldNoCopy_walk_spec. }
  assert (Hlen : length (init ++ [final]) - 1 = length init).
  { rewrite length_app. cbn. lia. }
  rewrite Hlen. unfold nestedFieldNoCopy. split; intros ->.
  - assert (Hr : (setNestedFieldNoCopy_walk obj (DeepCopy value) init final).2
                 = false) by by rewrite Hw.
    destruct (setNestedFieldNoCopy_walk_blocked _ _ _ _ Hr)
      as (Heq & i & x & Hi & Hx & Hm).
    rewrite Hw in Heq. split; [exact Heq |].
    exists i, x. split; [exact Hi |]. split; [| exact Hm].
    by rewrite take_app_le by lia.
  - assert (Hr : (setNestedFieldNoCopy_walk obj (DeepCopy value) init final).2
                 = true) by by rewrite Hw.
    split.
    + pose proof (setNestedFieldNoCopy_walk_lookup _ _ _ _ Hr) as Hl.
      by rewrite Hw in Hl.
    + intros i x Hi. rewrite take_app_le by lia.
      by apply (setNestedFieldNoCopy_walk_passed _ _ _ _ Hr).
Qed.

(** C5: when [SetNestedField] succeeds, [NestedFieldCopy] at the same path
    finds the value that was set. *)
Theorem set_get_roundtrip (obj obj' : gmap string jvalue) (value : jvalue)
    (fields : list string) :
  SetNestedField obj value fields = Returns (obj', true) →
  NestedFieldCopy obj' fields = (value, true).
Proof.
  intros Hset.
  destruct fields as [| final init _] using rev_ind; [done |].
  unfold SetNestedField, SetNestedField_with in Hset. rewrite setNestedFieldNoCopy_snoc in Hset.
  injection Hset as Hw.
  assert (Hr : (setNestedFieldNoCopy_walk obj (DeepCopyJSONValue value) init final).2
               = true) by by rewrite Hw.
  pose proof (setNestedFieldNoCopy_walk_lookup _ _ _ _ Hr) as Hl.
  rewrite Hw in Hl. unfold NestedFieldCopy, NestedFieldCopy_with, nestedFieldNoCopy.
  cbn [fst] in Hl. rewrite Hl. by rewrite !DeepCopyJSONValue_eq.
Qed.

(** C6, as the code has it: for a non-empty path at which [nestedFieldNoCopy]
    finds a value, [RemoveNestedField] returns and [nestedFieldNoCopy] then
    finds nothing at the path. *)
Theorem remove_then_not_found (obj : gmap string jvalue) (fields : list string) (x : jvalue) :
  fields ≠ [] →
  nestedFieldNoCopy obj fields = (x, true) →
  ∃ obj', RemoveNestedField obj fields = Returns obj' ∧
          (nestedFieldNoCopy obj' fields).2 = false.
Proof.
  intros [init [final ->]]%fields_snoc_inv Hx.
  rewrite RemoveNestedField_snoc. eexists. split; [reflexivity |].
  by eapply RemoveNestedField_walk_lookup.
Qed.

(** C6, the claim as stated fails: at the zero-length path a value is found
    (the tree itself), and [RemoveNestedField] panics. *)
Lemma remove_empty_path_example :
  nestedFieldNoCopy ∅ [] = (VMap ∅, true) ∧
  RemoveNestedField ∅ [] = Panics SliceBoundsOutOfRange.
Proof. split; reflexivity. Qed.

(** C7: [NestedStringSlice] finds a slice of strings exactly when the value
    at the path is a slice whose elements are those strings, in order; it finds
    nothing, and returns no element, when the path is missing, when the value
    is not a slice and when some element is not a string. *)
Theorem NestedStringSlice_all_or_nothing (obj : gmap string jvalue) (fields : list string) :
  (∀ strs, NestedStringSlice obj fields = (strs, true) ↔
           nestedFieldNoCopy obj fields = (VSlice (VString <$> strs), true)) ∧
  (∀ strs, NestedStringSlice obj fields = (strs, false) → strs = []) ∧
  ((nestedFieldNoCopy obj fields).2 = false →
     NestedStringSlice obj fields = ([], false)) ∧
  (∀ v, nestedFieldNoCopy obj fields = (v, true) → (∀ l, v ≠ VSlice l) →
     NestedStringSlice obj fields = ([], false)) ∧
  (∀ l, nestedFieldNoCopy obj fields = (VSlice l, true) →
     (∃ v, v ∈ l ∧ is_string v = false) →
     NestedStringSlice obj fields = ([], false)).
Proof.
  unfold NestedStringSlice.
  destruct (nestedFieldNoCopy obj fields) as [v found]. repeat split.
  - destruct v as [| s | b | n | bits | l | m], found; try done.
    intros (tl & -> & ->)%NestedStringSlice_loop_found. reflexivity.
  - intros [= -> ->]. apply NestedStringSlice_loop_found. by exists strs.
  - intros strs. destruct v as [| s | b | n | bits | l | m], found;
      try (intros [= ?]; by subst).
    apply NestedStringSlice_loop_not_found.
  - cbn. intros ->. by destruct v.
  - intros v' [= -> ->] Hv. destruct v'; try done. by destruct (Hv l).
  - intros l [= -> ->]. apply NestedStringSlice_loop_not_string.
Qed.

(** C10: with a zero-length path [nestedFieldNoCopy] finds the tree itself
    and [NestedFieldCopy] finds what [DeepCopy] returns for the tree, whatever
    function [DeepCopy] is; with [runtime.DeepCopyJSONValue] that is a rebuilt
    mapping of the copies of the entries, equal to the tree.  [SetNestedField]
    and [RemoveNestedField] panic on that path. *)
Theorem empty_path_read_write (DeepCopy : jvalue → jvalue) (obj : gmap string jvalue)
    (value : jvalue) :
  nestedFieldNoCopy obj [] = (VMap obj, true) ∧
  NestedFieldCopy_with DeepCopy obj [] = (DeepCopy (VMap obj), true) ∧
  NestedFieldCopy obj [] = (VMap (DeepCopyJSONValue <$> obj), true) ∧
  VMap (DeepCopyJSONValue <$> obj) = VMap obj ∧
  SetNestedField_with DeepCopy obj value [] = Panics SliceBoundsOutOfRange ∧
  RemoveNestedField obj [] = Panics SliceBoundsOutOfRange.
Proof.
  repeat split. rewrite <- DeepCopyJSONValue_VMap. apply DeepCopyJSONValue_eq.
Qed.

(** A tree with a mapping under "a": setting "a", "b" writes in that mapping. *)
Lemma SetNestedField_spec_witness :
  ["a"; "b"] ≠ ([] : list string) ∧
  SetNestedField_with DeepCopyJSONValue {[ "a" := VMap ∅ ]} (VSlice [VInt64 1]) ["a"; "b"]
  = Returns ({[ "a" := VMap {[ "b" := VSlice [VInt64 1] ]} ]}, true) ∧
  nestedFieldNoCopy {[ "a" := VMap {[ "b" := VSlice [VInt64 1] ]} ]} ["a"; "b"]
  = (DeepCopyJSONValue (VSlice [VInt64 1]), true).
Proof.
  assert (Hne : ["a"; "b"] ≠ ([] : list string)) by discriminate.
  assert (H : SetNestedField_with DeepCopyJSONValue {[ "a" := VMap ∅ ]}
                (VSlice [VInt64 1]) ["a"; "b"]
              = Returns ({[ "a" := VMap {[ "b" := VSlice [VInt64 1] ]} ]}, true)).
  { vm_compute. reflexivity. }
  split; [exact Hne |]. split; [exact H |].
  exact (proj1 (proj2 (proj2 (SetNestedField_spec _ _ _ _ _ _ Hne H)) eq_refl)).
Defined.

(** A scalar under "a" blocks the write below it. *)
Example SetNestedField_blocked :
  SetNestedField {[ "a" := VString "x" ]} VNil ["a"; "b"]
  = Returns ({[ "a" := VString "x" ]}, false).
Proof. vm_compute. reflexivity. Qed.

(** Absent segments are created on the way. *)
Example SetNestedField_creates :
  SetNestedField ∅ (VBool true) ["a"; "b"; "c"]
  = Returns ({[ "a" := VMap {[ "b" := VMap {[ "c" := VBool true ]} ]} ]}, true).
Proof. vm_compute. reflexivity. Qed.

Lemma set_get_roundtrip_witness :
  SetNestedField ∅ (VSlice [VString "x"; VNil]) ["spec"; "args"]
  = Returns ({[ "spec" := VMap {[ "args" := VSlice [VString "x"; VNil] ]} ]}, true) ∧
  NestedFieldCopy {[ "spec" := VMap {[ "args" := VSlice [VString "x"; VNil] ]} ]}
    ["spec"; "args"]
  = (VSlice [VString "x"; VNil], true).
Proof.
  assert (H : SetNestedField ∅ (VSlice [VString "x"; VNil]) ["spec"; "args"]
              = Returns ({[ "spec" := VMap {[ "args" := VSlice [VString "x"; VNil] ]} ]},
                         true)).
  { vm_compute. reflexivity. }
  split; [exact H |]. exact (set_get_roundtrip _ _ _ _ H).
Defined.

Lemma remove_then_not_found_witness :
  ["metadata"; "name"] ≠ ([] : list string) ∧
  nestedFieldNoCopy object_a ["metadata"; "name"] = (VString "a", true) ∧
  ∃ obj', RemoveNestedField object_a ["metadata"; "name"] = Returns obj' ∧
          (nestedFieldNoCopy obj' ["metadata"; "name"]).2 = false.
Proof.
  assert (H : nestedFieldNoCopy object_a ["metadata"; "name"] = (VString "a", true)).
  { vm_compute. reflexivity. }
  assert (Hne : ["metadata"; "name"] ≠ ([] : list string)) by discriminate.
  split; [exact Hne |]. split; [exact H |].
  exact (remove_then_not_found _ _ _ Hne H).
Defined.

(** One element that is not a string: nothing is found, not the strings before
    it. *)
Example NestedStringSlice_partial :
  NestedStringSlice {[ "args" := VSlice [VString "a"; VInt64 1; VString "b"] ]} ["args"]
  = ([], false).
Proof. vm_compute. reflexivity. Qed.

Example NestedStringSlice_strings :
  NestedStringSlice {[ "args" := VSlice [VString "a"; VString "b"] ]} ["args"]
  = (["a"; "b"], true).
Proof. vm_compute. reflexivity. Qed.

(** ** Kind and apiVersion *)

Lemma length_zero_iff (s : string) : (String.length s =? 0) = true ↔ s = EmptyString.
Proof.
  destruct s; cbn; [done |]. split; discriminate.
Qed.

Lemma getNestedString_single (obj : gmap string jvalue) (field : string) :
  getNestedString obj [field]
  = match obj !! field with Some (VString s) => s | _ => EmptyString end.
Proof.
  unfold getNestedString, NestedString, nestedFieldNoCopy.
  cbn [nestedFieldNoCopy_from].
  destruct (obj !! field) as [[] |]; reflexivity.
Qed.

Lemma SetNestedField_single (obj : gmap string jvalue) (value : jvalue) (field : string) :
  SetNestedField obj value [field] = Returns (<[field := value]> obj, true).
Proof.
  unfold SetNestedField, SetNestedField_with. rewrite DeepCopyJSONValue_eq. reflexivity.
Qed.

Lemma SetKind_returns (u : Unstructured) (kind : string) :
  SetKind u kind = Returns {| Object := <["kind" := VString kind]> (Object u) |}.
Proof.
  unfold SetKind, Unstructured_setNestedField.
  by rewrite SetNestedField_single.
Qed.

Lemma SetAPIVersion_returns (u : Unstructured) (version : string) :
  SetAPIVersion u version
  = Returns {| Object := <["apiVersion" := VString version]> (Object u) |}.
Proof.
  unfold SetAPIVersion, Unstructured_setNestedField.
  by rewrite SetNestedField_single.
Qed.

Lemma GetKind_infer (m : gmap string jvalue) (kind version : string) :
  GetKind (<["apiVersion" := VString version]> (<["kind" := VString kind]> m)) = kind.
Proof.
  unfold GetKind. rewrite getNestedString_single.
  rewrite lookup_insert_ne by done. by rewrite lookup_insert_eq.
Qed.

Lemma GetAPIVersion_infer (m : gmap string jvalue) (version : string) :
  GetAPIVersion (<["apiVersion" := VString version]> m) = version.
Proof.
  unfold GetAPIVersion. rewrite getNestedString_single. by rewrite lookup_insert_eq.
Qed.

Lemma GetKind_delete_items (m : gmap string jvalue) :
  GetKind (delete "items" m) = GetKind m.
Proof.
  unfold GetKind. rewrite !getNestedString_single. by rewrite lookup_delete_ne.
Qed.

Lemma GetAPIVersion_delete_items (m : gmap string jvalue) :
  GetAPIVersion (delete "items" m) = GetAPIVersion m.
Proof.
  unfold GetAPIVersion. rewrite !getNestedString_single. by rewrite lookup_delete_ne.
Qed.

(** What [infer_item] gives in the two cases. *)
Lemma infer_item_cases (itemKind listAPIVersion : string) (m : gmap string jvalue) :
  (GetKind m = EmptyString ∧ GetAPIVersion m = EmptyString →
     Object (infer_item itemKind listAPIVersion m)
     = <["apiVersion" := VString listAPIVersion]> (<["kind" := VString itemKind]> m) ∧
     GetKind (Object (infer_item itemKind listAPIVersion m)) = itemKind ∧
     GetAPIVersion (Object (infer_item itemKind listAPIVersion m)) = listAPIVersion) ∧
  (GetKind m ≠ EmptyString ∨ GetAPIVersion m ≠ EmptyString →
     Object (infer_item itemKind listAPIVersion m) = m).
Proof.
  unfold infer_item. split.
  - intros [-> ->]. cbn [String.length Nat.eqb andb Object].
    by rewrite GetKind_infer, GetAPIVersion_infer.
  - intros Hne.
    destruct (String.length (GetKind m) =? 0) eqn:Hk; [| reflexivity].
    destruct (String.length (GetAPIVersion m) =? 0) eqn:Hv; [| reflexivity].
    apply length_zero_iff in Hk, Hv. by destruct Hne.
Qed.

(** ** The codec *)

Section CodecProperties.
Context {Other Writer : Type} {ext : External Other Writer}.

Lemma infer_step (unstruct : Unstructured) (itemKind listAPIVersion : string) :
  (if (String.length (GetKind (Object unstruct)) =? 0) &&
      (String.length (GetAPIVersion (Object unstruct)) =? 0)
   then u ← SetKind unstruct itemKind; SetAPIVersion u listAPIVersion
   else mret unstruct)
  = Returns (infer_item itemKind listAPIVersion (Object unstruct)).
Proof.
  unfold infer_item.
  destruct ((String.length (GetKind (Object unstruct)) =? 0) &&
            (String.length (GetAPIVersion (Object unstruct)) =? 0)).
  - rewrite SetKind_returns. cbn [mbind outcome_bind].
    by rewrite SetAPIVersion_returns.
  - by destruct unstruct.
Qed.

(** The loop over the items returns; without error, every item was decoded
    and stored after [infer_item], in order. *)
Lemma decodeToList_items_returns (dItems : list bytes) (itemKind listAPIVersion : string)
    (items : list Unstructured) :
  ∃ r, decodeToList_items dItems itemKind listAPIVersion items = Returns r ∧
       (r.2 = None →
        ∃ ms, Forall2 (λ i m, Unmarshal_map i ∅ = (m, None)) dItems ms ∧
              r.1 = items ++ (infer_item itemKind listAPIVersion <$> ms)).
Proof.
  revert items. induction dItems as [| i dItems IH]; intros items.
  - eexists. split; [reflexivity |]. intros _. exists [].
    split; [constructor | by rewrite app_nil_r].
  - cbn [decodeToList_items]. unfold decodeToUnstructured.
    destruct (Unmarshal_map i ∅) as [m [err |]] eqn:Hm.
    { eexists. split; [reflexivity | done]. }
    rewrite infer_step. cbn [mbind outcome_bind Object].
    destruct (IH (items ++ [infer_item itemKind listAPIVersion m]))
      as (r & Hr & Hok).
    exists r. split; [exact Hr |]. intros Hnone.
    destruct (Hok Hnone) as (ms & Hms & Heq).
    exists (m :: ms). split; [by constructor |].
    by rewrite Heq, <- app_assoc.
Qed.

(** [decodeToList] returns: it does not panic. *)
Lemma decodeToList_returns (data : bytes) (list : UnstructuredList) :
  ∃ r, decodeToList data list = Returns r.
Proof.
  unfold decodeToList.
  destruct (Unmarshal_decodeList data) as [err | dItems]; [by eexists |].
  destruct (Unmarshal_map data (List_Object list)) as [obj [err |]]; [by eexists |].
  destruct (decodeToList_items_returns dItems
              (TrimSuffix (GetKind obj) "List") (GetAPIVersion obj) [])
    as (r & -> & _).
  by eexists.
Qed.

(** A list decoded without error: the payload gave the raw items and the
    list's map, "items" was deleted from the map, and the items are the
    decoded raw items after [infer_item]. *)
Lemma decodeToList_success (data : bytes) (list list' : UnstructuredList) :
  decodeToList data list = Returns (list', None) →
  ∃ dItems obj ms,
    Unmarshal_decodeList data = inr dItems ∧
    Unmarshal_map data (List_Object list) = (obj, None) ∧
    Forall2 (λ i m, Unmarshal_map i ∅ = (m, None)) dItems ms ∧
    List_Object list' = delete "items" obj ∧
    Items list'
    = infer_item (TrimSuffix (GetKind obj) "List") (GetAPIVersion obj) <$> ms.
Proof.
  unfold decodeToList.
  destruct (Unmarshal_decodeList data) as [err | dItems]; [done |].
  destruct (Unmarshal_map data (List_Object list)) as [obj [err |]]; [done |].
  destruct (decodeToList_items_returns dItems
              (TrimSuffix (GetKind obj) "List") (GetAPIVersion obj) [])
    as (r & -> & Hok).
  cbn [mbind outcome_bind mret outcome_ret]. intros [= <- Hnone].
  destruct (Hok Hnone) as (ms & Hms & Heq).
  exists dItems, obj, ms. by repeat split.
Qed.

(** C1: in a list decoded without error, each item comes from the raw item
    at its place: when the kind and the apiVersion of the decoded raw item
    are both empty, the item is that map with "kind" set to the list's kind
    without a final "List" and "apiVersion" set to the list's apiVersion;
    when one of the two is not empty, the item is the decoded map, with
    neither field changed. *)
Theorem decodeToList_item_inference (data : bytes) (list list' : UnstructuredList) :
  decodeToList data list = Returns (list', None) →
  ∃ dItems,
    Unmarshal_decodeList data = inr dItems ∧
    Forall2 (λ i item, ∃ m,
        Unmarshal_map i ∅ = (m, None) ∧
        (GetKind m = EmptyString ∧ GetAPIVersion m = EmptyString →
           Object item
           = <["apiVersion" := VString (GetAPIVersion (List_Object list'))]>
               (<["kind" := VString (TrimSuffix (GetKind (List_Object list')) "List")]> m) ∧
           GetKind (Object item) = TrimSuffix (GetKind (List_Object list')) "List" ∧
           GetAPIVersion (Object item) = GetAPIVersion (List_Object list')) ∧
        (GetKind m ≠ EmptyString ∨ GetAPIVersion m ≠ EmptyString →
           Object item = m))
      dItems (Items list').
Proof.
  intros (dItems & obj & ms & Hd & _ & Hms & Hobj & Hitems)%decodeToList_success.
  exists dItems. split; [exact Hd |].
  rewrite Hitems, Hobj, GetKind_delete_items, GetAPIVersion_delete_items.
  apply Forall2_fmap_r. eapply Forall2_impl; [exact Hms |].
  intros i m Hm. exists m. split; [exact Hm |]. apply infer_item_cases.
Qed.

(** The descriptor of a dynamic object of empty kind has an empty kind. *)
Lemma Unstructured_GroupVersionKind_empty (obj : gmap string jvalue) :
  GetKind obj = EmptyString →
  Kind (Unstructured_GroupVersionKind obj) = EmptyString.
Proof.
  intros Hk. unfold Unstructured_GroupVersionKind.
  by destruct (ParseGroupVersion (GetAPIVersion obj)) as [[g v] |].
Qed.

(** [decode], [decodeInto] and [Decode] return: none of them panics. *)
Lemma decode_returns (data : bytes) :
  ∃ r, decode data = Returns r.
Proof.
  unfold decode.
  destruct (Unmarshal_detector data) as [err | [items |]].
  - by eexists.
  - destruct (decodeToList_returns data {| List_Object := ∅; Items := [] |})
      as [r ->].
    by eexists.
  - by eexists.
Qed.

Lemma decodeInto_returns (data : bytes) (obj : runtime_Object Other) :
  ∃ r, decodeInto data obj = Returns r.
Proof.
  destruct obj as [x | x | Objects | x]; cbn [decodeInto].
  - by eexists.
  - destruct (decodeToList_returns data x) as [r ->]. by eexists.
  - destruct (decode_returns data) as [r ->].
    destruct r as [err | o [err |]]; by eexists.
  - by eexists.
Qed.

Lemma Decode_parse_returns (data : bytes) (obj : option (runtime_Object Other)) :
  ∃ o err into, Decode_parse data obj = Returns (o, err, into) ∧
                (o = None → is_Some err).
Proof.
  destruct obj as [o0 |]; cbn [Decode_parse].
  - destruct (decodeInto_returns data o0) as [r ->].
    eexists _, _, _. split; [reflexivity | done].
  - destruct (decode_returns data) as [r ->].
    destruct r as [err | o err]; eexists _, _, _; (split; [reflexivity |]);
      [by eexists | done].
Qed.

Lemma Decode_returns (data : bytes) (obj : option (runtime_Object Other)) :
  ∃ r, Decode data obj = Returns r.
Proof.
  destruct (Decode_parse_returns data obj) as (o & err & into & Hp & Hnil).
  unfold Decode. rewrite Hp. cbn [mbind outcome_bind].
  destruct o as [o |], err as [err |]; try by eexists.
  - destruct (String.length (Kind (Object_GroupVersionKind o)) =? 0); by eexists.
  - by destruct (Hnil eq_refl).
Qed.

(** Whenever [Decode] returns an error, the object it returns is nil. *)
Lemma Decode_error_nil (data : bytes) (obj : option (runtime_Object Other))
    (r : DecodeResult Other) :
  Decode data obj = Returns r → is_Some (ret_err r) → ret_obj r = None.
Proof.
  unfold Decode.
  destruct (Decode_parse data obj) as [[[o err] into] | p]; [| done].
  cbn [mbind outcome_bind].
  destruct o as [o |], err as [err |]; try done; try by intros [= <-].
  destruct (String.length (Kind (Object_GroupVersionKind o)) =? 0);
    intros [= <-]; [done | by intros [? ?]].
Qed.

(** The list that [decode] makes is a list decoded by [decodeToList]. *)
Lemma decode_list (data : bytes) (l : UnstructuredList) (err : option error) :
  decode data = Returns (ObjectWith (PUnstructuredList l) err) →
  decodeToList data {| List_Object := ∅; Items := [] |} = Returns (l, err).
Proof.
  unfold decode.
  destruct (Unmarshal_detector data) as [e | [items |]]; [done | | done].
  destruct (decodeToList data {| List_Object := ∅; Items := [] |})
    as [[l' err'] | p]; [| done].
  cbn [mbind outcome_bind mret outcome_ret]. by intros [= <- <-].
Qed.

(** C2, as the code has it: when the payload is decoded without error into
    an object whose descriptor has an empty kind, [Decode] returns the
    missing-kind error for the payload and the descriptor, and returns nil
    for the object; the decoded object is the state of the object that was
    given to [Decode], if one was. *)
Theorem Decode_missing_kind (data : bytes) (obj into : option (runtime_Object Other))
    (o : runtime_Object Other) :
  Decode_parse data obj = Returns (Some o, None, into) →
  Kind (Object_GroupVersionKind o) = EmptyString →
  Decode data obj
  = Returns {| ret_obj := None;
               ret_gvk := Some (Object_GroupVersionKind o);
               ret_err := Some (MissingKindErr (String.string_of_list_byte data));
               into_after := into |} ∧
  (obj = None → into = None) ∧
  (is_Some obj → into = Some o).
Proof.
  intros Hparse Hkind. split.
  - unfold Decode. rewrite Hparse. cbn [mbind outcome_bind].
    by rewrite Hkind.
  - unfold Decode_parse in Hparse. destruct obj as [o0 |].
    + destruct (decodeInto data o0) as [r | p]; [| done].
      cbn [mbind outcome_bind mret outcome_ret] in Hparse.
      injection Hparse as <- _ <-. split; [done | by intros _].
    + destruct (decode data) as [[err | o' err] | p]; try done.
      cbn [mbind outcome_bind mret outcome_ret] in Hparse.
      injection Hparse as _ _ <-. split; [done | by intros [? ?]].
Qed.

(** [Encode] collects the backing maps of the items. *)
Lemma Encode_items_fold (items : list Unstructured) (acc : list jvalue) :
  foldl (λ items i, items ++ [VMap (Object i)]) acc items
  = acc ++ item_objects items.
Proof.
  revert acc. induction items as [| i items IH]; intros acc; cbn [foldl].
  - by rewrite app_nil_r.
  - rewrite IH. unfold item_objects. by rewrite <- app_assoc.
Qed.

(** Copying the entries of a map one by one gives a map with the same
    entries. *)
Lemma shallow_copy_fold (m : gmap string jvalue) :
  map_fold (λ k v listObj, <[k := v]> listObj) (∅ : gmap string jvalue) m = m.
Proof.
  apply (map_fold_weak_ind (λ r m, r = m)); [done |].
  by intros i x m' r _ ->.
Qed.

(** The list case of [Encode] leaves the list's own map as it is and builds
    beside it the map with the key "items". *)
Lemma Encode_list_eq (t : UnstructuredList) :
  Encode_list t
  = {| t_Object := List_Object t;
       listObj := <["items" := VSlice (item_objects (Items t))]> (List_Object t) |}.
Proof.
  unfold Encode_list. cbn [t_Object listObj]. rewrite Encode_items_fold, app_nil_l.
  assert (Hfold :
    map_fold (λ k v s, {| t_Object := t_Object s; listObj := <[k := v]> (listObj s) |})
      {| t_Object := List_Object t; listObj := ∅ |} (List_Object t)
    = {| t_Object := List_Object t; listObj := List_Object t |}).
  { apply (map_fold_weak_ind
             (λ r m, r = {| t_Object := List_Object t; listObj := m |})); [done |].
    by intros i x m r _ ->. }
  by rewrite Hfold.
Qed.

Lemma Encode_listObj_eq (t : UnstructuredList) :
  Encode_listObj t = <["items" := VSlice (item_objects (Items t))]> (List_Object t).
Proof.
  unfold Encode_listObj. by rewrite Encode_list_eq.
Qed.

Lemma Encode_list_returns (t : UnstructuredList) (w : Writer) :
  Encode (PUnstructuredList t) w
  = (PUnstructuredList t,
     Encode_map (<["items" := VSlice (item_objects (Items t))]> (List_Object t)) w).
Proof.
  cbn [Encode]. rewrite Encode_list_eq. cbn [t_Object listObj]. by destruct t.
Qed.

(** C8: a list decoded without error, by [decodeToList] or by [decode], has
    no key "items" in its map; and [Encode] of a list leaves the list, its own
    map included, as it was, and serializes another map: one that has the
    entries of the list's map at every other key and, at "items", the backing
    maps of the items in order. *)
Theorem list_items_key (data : bytes) (list list' t : UnstructuredList) (w : Writer) :
  (decodeToList data list = Returns (list', None) →
     List_Object list' !! "items" = None) ∧
  (decode data = Returns (ObjectWith (PUnstructuredList list') None) →
     List_Object list' !! "items" = None) ∧
  Encode (PUnstructuredList t) w
  = (PUnstructuredList t,
     Encode_map (<["items" := VSlice (item_objects (Items t))]> (List_Object t)) w) ∧
  t_Object (Encode_list t) = List_Object t ∧
  Encode_listObj t !! "items" = Some (VSlice (item_objects (Items t))) ∧
  (∀ k, k ≠ "items" → Encode_listObj t !! k = List_Object t !! k).
Proof.
  assert (Hdel : ∀ list0, decodeToList data list0 = Returns (list', None) →
                          List_Object list' !! "items" = None).
  { intros list0 (dItems & obj & ms & _ & _ & _ & -> & _)%decodeToList_success.
    apply lookup_delete_eq. }
  split; [| split; [| split; [| split; [| split]]]].
  - apply Hdel.
  - intros Hd%decode_list. by eapply Hdel.
  - apply Encode_list_returns.
  - by rewrite Encode_list_eq.
  - rewrite Encode_listObj_eq. apply lookup_insert_eq.
  - intros k Hk. rewrite Encode_listObj_eq. by apply lookup_insert_ne.
Qed.
End CodecProperties.

(** ** The codec on the sample payloads *)

(** The list payload of the specification: the first item has neither kind nor
    apiVersion and gets "Pod" and "v1"; the second has the kind "Node" and is
    kept as it is, without an apiVersion. *)
Lemma decodeToList_sample :
  decodeToList (ext := sample_External) payload_list
    {| List_Object := ∅; Items := [] |}
  = Returns
      ({| List_Object := {[ "kind" := VString "PodList"; "apiVersion" := VString "v1" ]};
          Items := [ {| Object := {[ "kind" := VString "Pod";
                                     "apiVersion" := VString "v1";
                                     "metadata" := VMap {[ "name" := VString "a" ]} ]} |};
                     {| Object := object_b |} ] |},
       None).
Proof. vm_compute. reflexivity. Qed.

Lemma decodeToList_item_inference_witness :
  ∃ dItems,
    Unmarshal_decodeList (External := sample_External) payload_list = inr dItems ∧
    Forall2 (λ i item, ∃ m,
        Unmarshal_map (External := sample_External) i ∅ = (m, None) ∧
        (GetKind m = EmptyString ∧ GetAPIVersion m = EmptyString →
           Object item
           = <["apiVersion" := VString "v1"]> (<["kind" := VString "Pod"]> m) ∧
           GetKind (Object item) = "Pod" ∧
           GetAPIVersion (Object item) = "v1") ∧
        (GetKind m ≠ EmptyString ∨ GetAPIVersion m ≠ EmptyString →
           Object item = m))
      dItems
      [ {| Object := {[ "kind" := VString "Pod";
                        "apiVersion" := VString "v1";
                        "metadata" := VMap {[ "name" := VString "a" ]} ]} |};
        {| Object := object_b |} ].
Proof.
  exact (decodeToList_item_inference (ext := sample_External) _ _ _ decodeToList_sample).
Defined.

(** The payload without kind, decoded into a given dynamic object: the object
    holds the decoded map, with the name "a", and [Decode] returns nil with the
    missing-kind error. *)
Lemma Decode_parse_sample :
  Decode_parse (ext := sample_External) payload_a
    (Some (PUnstructured {| Object := ∅ |}))
  = Returns (Some (PUnstructured {| Object := object_a |}), None,
             Some (PUnstructured {| Object := object_a |})).
Proof. vm_compute. reflexivity. Qed.

Lemma Decode_missing_kind_witness :
  Decode (ext := sample_External) payload_a (Some (PUnstructured {| Object := ∅ |}))
  = Returns {| ret_obj := None;
               ret_gvk := Some empty_GroupVersionKind;
               ret_err := Some (MissingKindErr (String.string_of_list_byte payload_a));
               into_after := Some (PUnstructured {| Object := object_a |}) |} ∧
  getNestedString object_a ["metadata"; "name"] = "a".
Proof.
  split; [| vm_compute; reflexivity].
  refine (proj1 (Decode_missing_kind (ext := sample_External) payload_a _ _
                   (PUnstructured {| Object := object_a |}) Decode_parse_sample _)).
  vm_compute. reflexivity.
Defined.

(** C2, the claim as stated fails: decoding the payload without kind, with no
    object given, fails with the missing-kind error, and no object is
    returned. *)
Lemma Decode_missing_kind_returns_nil :
  Decode (ext := sample_External) payload_a None
  = Returns {| ret_obj := None;
               ret_gvk := Some empty_GroupVersionKind;
               ret_err := Some (MissingKindErr (String.string_of_list_byte payload_a));
               into_after := None |}.
Proof. vm_compute. reflexivity. Qed.

Lemma list_items_key_witness :
  (decodeToList (ext := sample_External) payload_list {| List_Object := ∅; Items := [] |}
   = Returns
      ({| List_Object := {[ "kind" := VString "PodList"; "apiVersion" := VString "v1" ]};
          Items := [ {| Object := {[ "kind" := VString "Pod";
                                     "apiVersion" := VString "v1";
                                     "metadata" := VMap {[ "name" := VString "a" ]} ]} |};
                     {| Object := object_b |} ] |},
       None)) ∧
  ({[ "kind" := VString "PodList"; "apiVersion" := VString "v1" ]} : gmap string jvalue)
    !! "items" = None.
Proof.
  split; [exact decodeToList_sample |].
  exact (proj1 (list_items_key (ext := sample_External) payload_list
                  {| List_Object := ∅; Items := [] |} _
                  {| List_Object := ∅; Items := [] |} [])
               decodeToList_sample).
Defined.

(** ** The object converter *)

(** After a conversion that succeeds, the two objects refer to the same map:
    the storage is shared, and no map was made. *)
Lemma Convert_aliases (h h' : heap) (a b : loc) (context : iface) :
  Convert h (IUnstructured (Some a)) (IUnstructured (Some b)) context
  = Returns (h', None) →
  objects h' !! b = objects h' !! a ∧ objects h' !! a = objects h !! a ∧
  maps h' = maps h.
Proof.
  unfold Convert. cbn [as_Unstructured load_Object store_Object].
  destruct (objects h !! a) as [r |] eqn:Ha; [| done].
  cbn [mbind outcome_bind].
  destruct (objects h !! b) as [r' |] eqn:Hb; [| done].
  cbn [mbind outcome_bind mret outcome_ret]. intros [= <-]. cbn [objects maps].
  rewrite lookup_insert_eq. destruct (decide (a = b)) as [-> | Hne].
  - by rewrite lookup_insert_eq.
  - by rewrite lookup_insert_ne.
Qed.

(** C9, as the code has it: [Convert] returns without error exactly when its
    input and its output are addresses of dynamic objects; then the output's
    field [Object] is the input's map reference, and no map changes.  When the
    input is nil or of another type the heap is unchanged and the error names
    that type; when the input is a [*Unstructured] and the output is nil or of
    another type the heap is unchanged and the error names that type.  When
    both are of the type [*Unstructured] and one of them is not the address of
    an object, as a nil pointer is not, [Convert] panics. *)
Theorem Convert_spec (h : heap) (in_ out context : iface) :
  ((∃ h', Convert h in_ out context = Returns (h', None)) ↔
     is_Unstructured h in_ ∧ is_Unstructured h out) ∧
  (∀ h', Convert h in_ out context = Returns (h', None) →
     ∃ a b r, in_ = IUnstructured (Some a) ∧ out = IUnstructured (Some b) ∧
              objects h !! a = Some r ∧
              h' = {| objects := <[b := r]> (objects h); maps := maps h |} ∧
              objects h' !! b = objects h' !! a) ∧
  (in_ = INil →
     Convert h in_ out context
     = Returns (h, Some (Errorf
         "input type <nil> in not valid for unstructured conversion"))) ∧
  (∀ T, in_ = IOtherType T →
     Convert h in_ out context
     = Returns (h, Some (Errorf ("input type " +:+ T +:+
                                 " in not valid for unstructured conversion")))) ∧
  (∀ p, in_ = IUnstructured p → out = INil →
     Convert h in_ out context
     = Returns (h, Some (Errorf
         "output type <nil> in not valid for unstructured conversion"))) ∧
  (∀ p T, in_ = IUnstructured p → out = IOtherType T →
     Convert h in_ out context
     = Returns (h, Some (Errorf ("output type " +:+ T +:+
                                 " in not valid for unstructured conversion")))) ∧
  (∀ p q, in_ = IUnstructured p → out = IUnstructured q →
     ¬ (is_Unstructured h in_ ∧ is_Unstructured h out) →
     Convert h in_ out context = Panics NilPointerDereference).
Proof.
  split; [| split; [| split; [| split; [| split; [| split]]]]].
  - split.
    + intros [h' Hc]. unfold Convert in Hc.
      destruct in_ as [| [a |] | T]; try done;
        destruct out as [| [b |] | T']; try done;
        cbn [as_Unstructured load_Object store_Object] in Hc.
      * destruct (objects h !! a) as [r |] eqn:Ha; [| done].
        cbn [mbind outcome_bind] in Hc.
        destruct (objects h !! b) as [r' |] eqn:Hb; [| done].
        split; eexists; (split; [reflexivity |]); by eexists.
      * destruct (objects h !! a) as [r |] eqn:Ha; done.
    + intros [(a & -> & r & Ha) (b & -> & r' & Hb)].
      unfold Convert. cbn [as_Unstructured load_Object store_Object].
      rewrite Ha. cbn [mbind outcome_bind]. rewrite Hb. by eexists.
  - intros h' Hc. unfold Convert in Hc.
    destruct in_ as [| [a |] | T]; try done;
      destruct out as [| [b |] | T']; try done.
    + pose proof (Convert_aliases h h' a b context Hc) as (Hab & _ & _).
      unfold Convert in Hc. cbn [as_Unstructured load_Object store_Object] in Hc.
      destruct (objects h !! a) as [r |] eqn:Ha; [| done].
      cbn [mbind outcome_bind] in Hc.
      destruct (objects h !! b) as [r' |] eqn:Hb; [| done].
      injection Hc as <-. exists a, b, r. repeat split; try done.
    + cbn [as_Unstructured load_Object store_Object] in Hc.
      destruct (objects h !! a) as [r |] eqn:Ha; done.
  - by intros ->.
  - by intros T ->.
  - by intros p -> ->.
  - by intros p T -> ->.
  - intros p q -> -> Hnot. unfold Convert.
    destruct p as [a |]; [| reflexivity].
    cbn [as_Unstructured load_Object].
    destruct (objects h !! a) as [r |] eqn:Ha; [| reflexivity].
    cbn [mbind outcome_bind].
    destruct q as [b |]; [| reflexivity].
    cbn [store_Object].
    destruct (objects h !! b) as [r' |] eqn:Hb; [| reflexivity].
    destruct Hnot. split; eexists; (split; [reflexivity |]); by eexists.
Qed.

(** C9, the claim as stated fails: a nil [*Unstructured] as input, or as
    output, is of the type of the dynamic object and passes the type
    assertion, and [Convert] neither succeeds nor returns an error: it
    panics. *)
Lemma Convert_typed_nil_example :
  as_Unstructured (IUnstructured None) = (None, true) ∧
  Convert sample_heap (IUnstructured None) (IUnstructured (Some 2%positive)) INil
  = Panics NilPointerDereference ∧
  Convert sample_heap (IUnstructured (Some 1%positive)) (IUnstructured None) INil
  = Panics NilPointerDereference.
Proof. repeat split. Qed.

(** The first sample object converted into the second: the second then refers
    to the map of the first. *)
Lemma Convert_spec_witness :
  Convert sample_heap (IUnstructured (Some 1%positive)) (IUnstructured (Some 2%positive)) INil
  = Returns ({| objects := {[ 1%positive := Some 10%positive;
                               2%positive := Some 10%positive ]};
                maps := maps sample_heap |}, None) ∧
  is_Unstructured sample_heap (IUnstructured (Some 1%positive)) ∧
  is_Unstructured sample_heap (IUnstructured (Some 2%positive)).
Proof.
  assert (H : Convert sample_heap (IUnstructured (Some 1%positive))
                (IUnstructured (Some 2%positive)) INil
              = Returns ({| objects := {[ 1%positive := Some 10%positive;
                                           2%positive := Some 10%positive ]};
                            maps := maps sample_heap |}, None)).
  { vm_compute. reflexivity. }
  split; [exact H |].
  apply (proj1 (Convert_spec sample_heap _ _ INil)). eexists. exact H.
Defined.

(** Two values of other types: the error names the type of the input. *)
Example Convert_other_types :
  Convert sample_heap (IOtherType "*v1.Pod") (IOtherType "string") INil
  = Returns (sample_heap,
             Some (Errorf "input type *v1.Pod in not valid for unstructured conversion")).
Proof. reflexivity. Qed.

(** A nil pointer to a dynamic object passes the type assertions and is then
    dereferenced. *)
Example Convert_nil_pointer :
  Convert sample_heap (IUnstructured None) (IUnstructured (Some 2%positive)) INil
  = Panics NilPointerDereference.
Proof. reflexivity. Qed.

(** * Further properties of the accessors *)

(** ** Reading along a path *)

Lemma nestedFieldNoCopy_from_app (val : jvalue) (p q : list string) :
  nestedFieldNoCopy_from val (p ++ q)
  = match nestedFieldNoCopy_from val p with
    | (val', true) => nestedFieldNoCopy_from val' q
    | (_, false) => (VNil, false)
    end.
Proof.
  revert val. induction p as [| field p IH]; intros val; [reflexivity |].
  cbn [app nestedFieldNoCopy_from].
  destruct val as [| | | | | | m]; try reflexivity.
  destruct (m !! field) as [val' |]; [apply IH | reflexivity].
Qed.

Lemma nestedFieldNoCopy_from_not_found (val : jvalue) (fields : list string) (x : jvalue) :
  nestedFieldNoCopy_from val fields = (x, false) → x = VNil.
Proof.
  revert val. induction fields as [| field fields IH]; intros val; [done |].
  cbn [nestedFieldNoCopy_from].
  destruct val as [| | | | | | m]; try by intros [= <-].
  destruct (m !! field) as [val' |]; [apply IH | by intros [= <-]].
Qed.

Lemma nestedFieldNoCopy_from_scalar (val : jvalue) (field : string) (fields : list string) :
  is_map val = false → nestedFieldNoCopy_from val (field :: fields) = (VNil, false).
Proof. by destruct val. Qed.


(** ** Removing *)

Lemma RemoveNestedField_walk_absent m (init : list string) final :
  (nestedFieldNoCopy_from (VMap m) (init ++ [final])).2 = false →
  RemoveNestedField_walk m init final = m.
Proof.
  revert m. induction init as [| field init IH]; intros m;
    cbn [app nestedFieldNoCopy_from RemoveNestedField_walk].
  - destruct (m !! final) eqn:Hf; [done |]. intros _. by apply delete_id.
  - destruct (m !! field) as [v |] eqn:Hf; [| done].
    destruct v as [| | | | | | x]; try done.
    intros Hx. rewrite (IH _ Hx). by apply insert_id.
Qed.


(** ** Setting *)


Lemma setNestedFieldNoCopy_lookup obj obj' value (fields : list string) :
  setNestedFieldNoCopy obj value fields = Returns (obj', true) →
  nestedFieldNoCopy obj' fields = (value, true).
Proof.
  destruct fields as [| final init _] using rev_ind; [done |].
  rewrite setNestedFieldNoCopy_snoc. intros [= Hw].
  assert (Hr : (setNestedFieldNoCopy_walk obj value init final).2 = true)
    by by rewrite Hw.
  pose proof (setNestedFieldNoCopy_walk_lookup _ _ _ _ Hr) as Hl.
  by rewrite Hw in Hl.
Qed.


Lemma setNestedFieldNoCopy_walk_again m value1 value2 (init : list string) final :
  (setNestedFieldNoCopy_walk m value1 init final).2 = true →
  setNestedFieldNoCopy_walk (setNestedFieldNoCopy_walk m value1 init final).1
    value2 init final
  = setNestedFieldNoCopy_walk m value2 init final.
Proof.
  revert m. induction init as [| field init IH]; intros m;
    cbn [setNestedFieldNoCopy_walk].
  { intros _. cbn [fst]. by rewrite insert_insert_eq. }
  destruct (m !! field) as [v |] eqn:Hf.
  - destruct v as [| | | | | | valMap]; try done.
    cbn [fst snd]. intros Hr. rewrite lookup_insert_eq, (IH _ Hr).
    by rewrite insert_insert_eq.
  - cbn [fst snd]. intros Hr. rewrite lookup_insert_eq, (IH _ Hr).
    by rewrite insert_insert_eq.
Qed.

Lemma setNestedFieldNoCopy_walk_prefixes m value (init : list string) final :
  (setNestedFieldNoCopy_walk m value init final).2 = true →
  ∀ i, i < length init →
       ∃ sub, nestedFieldNoCopy_from
                (VMap (setNestedFieldNoCopy_walk m value init final).1)
                (take (S i) init)
              = (VMap sub, true).
Proof.
  revert m. induction init as [| field init IH]; intros m Hr i Hi.
  { cbn in Hi. lia. }
  cbn [setNestedFieldNoCopy_walk] in *.
  change (take (S i) (field :: init)) with (field :: take i init).
  destruct (m !! field) as [v |] eqn:Hf.
  - destruct v as [| | | | | | valMap]; try done.
    cbn [fst snd nestedFieldNoCopy_from] in *. rewrite lookup_insert_eq.
    destruct i as [| i]; [by eexists |].
    cbn [length] in Hi. apply (IH _ Hr). lia.
  - cbn [fst snd nestedFieldNoCopy_from] in *. rewrite lookup_insert_eq.
    destruct i as [| i]; [by eexists |].
    cbn [length] in Hi. apply (IH _ Hr). lia.
Qed.

Lemma set_then_remove_walk m parent value (init : list string) final :
  nestedFieldNoCopy_from (VMap m) init = (VMap parent, true) →
  parent !! final = None →
  (setNestedFieldNoCopy_walk m value init final).2 = true ∧
  RemoveNestedField_walk (setNestedFieldNoCopy_walk m value init final).1 init final
  = m.
Proof.
  revert m. induction init as [| field init IH]; intros m;
    cbn [nestedFieldNoCopy_from setNestedFieldNoCopy_walk RemoveNestedField_walk].
  { intros [= ->] Hfinal. split; [done |]. cbn [fst]. by apply delete_insert_id. }
  destruct (m !! field) as [v |] eqn:Hf; [| done].
  intros Hp Hfinal.
  destruct v as [| | | | | | valMap];
    try (destruct init; done).
  destruct (IH _ Hp Hfinal) as [Hok Hrm].
  cbn [fst snd]. split; [exact Hok |].
  rewrite lookup_insert_eq, Hrm, insert_insert_eq. by apply insert_id.
Qed.

Lemma setNestedFieldNoCopy_walk_flag m value1 value2 (init : list string) final :
  (setNestedFieldNoCopy_walk m value1 init final).2
  = (setNestedFieldNoCopy_walk m value2 init final).2.
Proof.
  revert m. induction init as [| field init IH]; intros m; [reflexivity |].
  cbn [setNestedFieldNoCopy_walk].
  destruct (m !! field) as [[| | | | | | valMap] |]; try reflexivity; apply IH.
Qed.

Lemma DeepCopyJSON_eq (m : gmap string jvalue) : DeepCopyJSON m = m.
Proof.
  pose proof (DeepCopyJSONValue_eq (VMap m)) as H.
  rewrite DeepCopyJSONValue_VMap in H. by injection H.
Qed.

Lemma nestedMapNoCopy_found obj (fields : list string) m :
  nestedMapNoCopy obj fields = (m, true) ↔ nestedFieldNoCopy obj fields = (VMap m, true).
Proof.
  unfold nestedMapNoCopy.
  destruct (nestedFieldNoCopy obj fields) as [[| | | | | | m'] []];
    split; intros [= ?]; by subst.
Qed.

(** X1: removing at a non-empty path where nothing is found returns and leaves
    the tree as it was: a missing or non-mapping segment on the way, or a
    missing last key, is no error. *)
Theorem RemoveNestedField_missing (obj : gmap string jvalue) (fields : list string) :
  fields ≠ [] →
  (nestedFieldNoCopy obj fields).2 = false →
  RemoveNestedField obj fields = Returns obj.
Proof.
  intros [init [final ->]]%fields_snoc_inv Hnf.
  rewrite RemoveNestedField_snoc. f_equal.
  by apply RemoveNestedField_walk_absent.
Qed.

Lemma RemoveNestedField_missing_witness :
  RemoveNestedField sample_tree ["spec"; "replicas"; "max"] = Returns sample_tree ∧
  RemoveNestedField sample_tree ["status"; "phase"] = Returns sample_tree.
Proof.
  split; apply RemoveNestedField_missing; (discriminate || (vm_compute; reflexivity)).
Defined.





(** X4: a second set at the same path replaces the first: after a set that
    succeeded, setting another value succeeds and gives the tree that setting
    this value in the first place gives. *)
Theorem SetNestedField_overwrite (obj obj1 : gmap string jvalue) (value1 value2 : jvalue)
    (fields : list string) :
  SetNestedField obj value1 fields = Returns (obj1, true) →
  ∃ obj2, SetNestedField obj1 value2 fields = Returns (obj2, true) ∧
          SetNestedField obj value2 fields = Returns (obj2, true).
Proof.
  destruct fields as [| final init _] using rev_ind; [done |].
  unfold SetNestedField, SetNestedField_with. rewrite !setNestedFieldNoCopy_snoc. intros [= Hw].
  assert (Hr : (setNestedFieldNoCopy_walk obj (DeepCopyJSONValue value1) init final).2
               = true) by by rewrite Hw.
  pose proof (setNestedFieldNoCopy_walk_again obj _ (DeepCopyJSONValue value2) _ _ Hr)
    as Hagain.
  rewrite Hw in Hagain. cbn [fst] in Hagain. rewrite Hagain.
  rewrite (setNestedFieldNoCopy_walk_flag _ _ (DeepCopyJSONValue value2)) in Hr.
  destruct (setNestedFieldNoCopy_walk obj (DeepCopyJSONValue value2) init final)
    as [obj2 ok]. cbn [snd] in Hr. subst ok. by exists obj2.
Qed.

Lemma SetNestedField_overwrite_witness :
  ∃ obj2,
    SetNestedField {[ "spec" := VMap {[ "replicas" := VInt64 1 ]} ]} (VInt64 2)
      ["spec"; "replicas"] = Returns (obj2, true) ∧
    SetNestedField ∅ (VInt64 2) ["spec"; "replicas"] = Returns (obj2, true).
Proof.
  apply (SetNestedField_overwrite ∅ {[ "spec" := VMap {[ "replicas" := VInt64 1 ]} ]}
           (VInt64 1)).
  vm_compute. reflexivity.
Defined.

(** X5: when the segments before the last lead to a mapping without the last
    key, a set at the path that returns has succeeded, and removing at the
    path afterwards gives back the tree as it was. *)
Theorem set_then_remove (obj obj' parent : gmap string jvalue) (value : jvalue)
    (fields : list string) (ok : bool) :
  fields ≠ [] →
  nestedMapNoCopy obj (take (length fields - 1) fields) = (parent, true) →
  (nestedFieldNoCopy obj fields).2 = false →
  SetNestedField obj value fields = Returns (obj', ok) →
  ok = true ∧ RemoveNestedField obj' fields = Returns obj.
Proof.
  intros [init [final ->]]%fields_snoc_inv.
  rewrite length_app, Nat.add_sub, take_app_length.
  intros Hparent%nestedMapNoCopy_found Hnf.
  unfold nestedFieldNoCopy in *.
  rewrite nestedFieldNoCopy_from_app, Hparent in Hnf.
  cbn [nestedFieldNoCopy_from] in Hnf.
  destruct (parent !! final) eqn:Hfinal; [done |].
  destruct (set_then_remove_walk obj parent (DeepCopyJSONValue value) init final
              Hparent Hfinal) as [Hok Hrm].
  unfold SetNestedField, SetNestedField_with. rewrite setNestedFieldNoCopy_snoc.
  intros [= Hw]. rewrite Hw in Hok, Hrm. cbn [fst snd] in *.
  split; [exact Hok |]. rewrite RemoveNestedField_snoc. by rewrite Hrm.
Qed.

Lemma set_then_remove_witness :
  SetNestedField sample_tree (VString "x") ["metadata"; "labels"; "tier"]
  = Returns
      ({[ "metadata" := VMap {[ "name" := VString "a";
                                "labels" := VMap {[ "app" := VString "web";
                                                    "tier" := VString "x" ]} ]};
          "spec" := VMap {[ "replicas" := VInt64 3 ]} ]}, true) ∧
  RemoveNestedField
    {[ "metadata" := VMap {[ "name" := VString "a";
                             "labels" := VMap {[ "app" := VString "web";
                                                 "tier" := VString "x" ]} ]};
       "spec" := VMap {[ "replicas" := VInt64 3 ]} ]}
    ["metadata"; "labels"; "tier"]
  = Returns sample_tree.
Proof.
  assert (H : SetNestedField sample_tree (VString "x") ["metadata"; "labels"; "tier"]
              = Returns
                  ({[ "metadata" := VMap {[ "name" := VString "a";
                                            "labels" := VMap {[ "app" := VString "web";
                                                                "tier" := VString "x" ]} ]};
                      "spec" := VMap {[ "replicas" := VInt64 3 ]} ]}, true)).
  { vm_compute. reflexivity. }
  split; [exact H |].
  refine (proj2 (set_then_remove sample_tree _ {[ "app" := VString "web" ]} _ _ _
                   _ _ _ H)).
  - discriminate.
  - vm_compute. reflexivity.
  - vm_compute. reflexivity.
Defined.

(** A created mapping stays when the value below it is removed again. *)
Example set_then_remove_created :
  ∃ obj', SetNestedField ∅ VNil ["a"; "b"] = Returns (obj', true) ∧
          RemoveNestedField obj' ["a"; "b"] = Returns {[ "a" := VMap ∅ ]}.
Proof. eexists. split; vm_compute; reflexivity. Qed.

(** X6: removing twice at the same path is removing once. *)
Theorem RemoveNestedField_idempotent (obj obj' : gmap string jvalue) (fields : list string) :
  RemoveNestedField obj fields = Returns obj' →
  RemoveNestedField obj' fields = Returns obj'.
Proof.
  destruct fields as [| final init _] using rev_ind; [done |].
  rewrite !RemoveNestedField_snoc. intros [= <-]. f_equal.
  apply RemoveNestedField_walk_absent.
  destruct (nestedFieldNoCopy_from (VMap obj) (init ++ [final])) as [x found] eqn:Hx.
  destruct found.
  - by eapply RemoveNestedField_walk_lookup.
  - rewrite RemoveNestedField_walk_absent by by rewrite Hx. by rewrite Hx.
Qed.

Lemma RemoveNestedField_idempotent_witness :
  RemoveNestedField {[ "spec" := VMap ∅ ]} ["spec"; "replicas"]
  = Returns {[ "spec" := VMap ∅ ]}.
Proof.
  apply (RemoveNestedField_idempotent {[ "spec" := VMap {[ "replicas" := VInt64 3 ]} ]}).
  vm_compute. reflexivity.
Defined.

(** X7: after a set that succeeded, every beginning of the path that stops
    before the last segment leads to a mapping. *)
Theorem SetNestedField_prefixes (obj obj' : gmap string jvalue) (value : jvalue)
    (fields : list string) :
  SetNestedField obj value fields = Returns (obj', true) →
  ∀ i, i < length fields - 1 →
       (nestedMapNoCopy obj' (take (S i) fields)).2 = true.
Proof.
  destruct fields as [| final init _] using rev_ind; [done |].
  unfold SetNestedField, SetNestedField_with. rewrite setNestedFieldNoCopy_snoc. intros [= Hw] i.
  rewrite length_app, Nat.add_sub. intros Hi.
  rewrite take_app_le by lia.
  assert (Hr : (setNestedFieldNoCopy_walk obj (DeepCopyJSONValue value) init final).2
               = true) by by rewrite Hw.
  destruct (setNestedFieldNoCopy_walk_prefixes _ _ _ _ Hr i Hi) as [sub Hsub].
  rewrite Hw in Hsub. cbn [fst] in Hsub.
  unfold nestedMapNoCopy, nestedFieldNoCopy. by rewrite Hsub.
Qed.

Lemma SetNestedField_prefixes_witness :
  (nestedMapNoCopy {[ "a" := VMap {[ "b" := VMap {[ "c" := VBool true ]} ]} ]}
     ["a"; "b"]).2 = true.
Proof.
  assert (H : SetNestedField ∅ (VBool true) ["a"; "b"; "c"]
              = Returns ({[ "a" := VMap {[ "b" := VMap {[ "c" := VBool true ]} ]} ]},
                         true)).
  { vm_compute. reflexivity. }
  apply (SetNestedField_prefixes _ _ _ _ H 1). cbn. lia.
Defined.

(** X8: reading at a path that goes on from another: below a mapping found by
    [NestedMap] it is reading in that mapping; below a path where nothing is
    found, and below a value that is not a mapping, nothing is found. *)
Theorem nested_path_compose (obj : gmap string jvalue) (p q : list string) :
  (∀ m, NestedMap obj p = (m, true) →
        nestedFieldNoCopy obj (p ++ q) = nestedFieldNoCopy m q) ∧
  ((nestedFieldNoCopy obj p).2 = false →
     nestedFieldNoCopy obj (p ++ q) = (VNil, false)) ∧
  (∀ v, nestedFieldNoCopy obj p = (v, true) → is_map v = false → q ≠ [] →
        nestedFieldNoCopy obj (p ++ q) = (VNil, false)).
Proof.
  unfold NestedMap, nestedMapNoCopy, nestedFieldNoCopy.
  rewrite nestedFieldNoCopy_from_app.
  destruct (nestedFieldNoCopy_from (VMap obj) p) as [v found].
  split; [| split].
  - intros m. destruct v as [| | | | | | m'], found; try done.
    rewrite DeepCopyJSON_eq. by intros [= ->].
  - cbn [snd]. by intros ->.
  - intros v' [= -> ->] Hv Hq. destruct q as [| field q]; [done |].
    by apply nestedFieldNoCopy_from_scalar.
Qed.

(** ** The typed readers and writers *)

(** X9: at one path at most one of the typed readers finds a value, and none
    does where [nestedFieldNoCopy] finds nothing; an int64 is not read as a
    float64, nor a float64 as an int64. *)
Theorem typed_readers_exclusive (obj : gmap string jvalue) (fields : list string) :
  Nat.b2n (NestedString obj fields).2 + Nat.b2n (NestedBool obj fields).2 +
  Nat.b2n (NestedFloat64 obj fields).2 + Nat.b2n (NestedInt64 obj fields).2 +
  Nat.b2n (NestedSlice obj fields).2 + Nat.b2n (NestedMap obj fields).2 ≤ 1 ∧
  ((nestedFieldNoCopy obj fields).2 = false →
     (NestedString obj fields).2 = false ∧ (NestedBool obj fields).2 = false ∧
     (NestedFloat64 obj fields).2 = false ∧ (NestedInt64 obj fields).2 = false ∧
     (NestedSlice obj fields).2 = false ∧ (NestedMap obj fields).2 = false ∧
     (NestedStringSlice obj fields).2 = false ∧
     (NestedStringMap obj fields).2 = false) ∧
  (∀ i, nestedFieldNoCopy obj fields = (VInt64 i, true) →
        NestedInt64 obj fields = (i, true) ∧ NestedFloat64 obj fields = (0%Z, false)) ∧
  (∀ f, nestedFieldNoCopy obj fields = (VFloat64 f, true) →
        NestedFloat64 obj fields = (f, true) ∧ NestedInt64 obj fields = (0%Z, false)).
Proof.
  unfold NestedString, NestedBool, NestedFloat64, NestedInt64, NestedSlice,
    NestedMap, NestedStringSlice, NestedStringMap, nestedMapNoCopy.
  destruct (nestedFieldNoCopy obj fields) as [v found].
  split; [| split; [| split]].
  - destruct v, found; cbn; lia.
  - cbn [snd]. intros ->. by destruct v.
  - by intros i [= -> ->].
  - by intros f [= -> ->].
Qed.

Lemma SetNestedStringSlice_fold (value : list string) (acc : list jvalue) :
  foldl (λ m v, m ++ [VString v]) acc value = acc ++ (VString <$> value).
Proof.
  revert acc. induction value as [| v value IH]; intros acc; cbn [foldl].
  - by rewrite app_nil_r.
  - rewrite IH. by rewrite <- app_assoc.
Qed.

(** X10: a slice of strings set with [SetNestedStringSlice] is read back by
    [NestedStringSlice]. *)
Theorem string_slice_roundtrip (obj obj' : gmap string jvalue) (value fields : list string) :
  SetNestedStringSlice obj value fields = Returns (obj', true) →
  NestedStringSlice obj' fields = (value, true).
Proof.
  unfold SetNestedStringSlice. rewrite SetNestedStringSlice_fold, app_nil_l.
  intros Hl%setNestedFieldNoCopy_lookup.
  unfold NestedStringSlice. rewrite Hl.
  apply NestedStringSlice_loop_found. by exists value.
Qed.

Lemma string_slice_roundtrip_witness :
  NestedStringSlice
    {[ "spec" := VMap {[ "args" := VSlice [VString "-v"; VString "--all"] ]} ]}
    ["spec"; "args"]
  = (["-v"; "--all"], true).
Proof.
  apply (string_slice_roundtrip ∅). vm_compute. reflexivity.
Defined.

Lemma SetNestedStringMap_fold (value : gmap string string) :
  map_fold (λ k v m, <[k := VString v]> m) (∅ : gmap string jvalue) value
  = VString <$> value.
Proof.
  apply (map_fold_weak_ind (λ r m, r = VString <$> m)).
  - by rewrite fmap_empty.
  - intros i x m r _ ->. by rewrite fmap_insert.
Qed.

Lemma VString_inj : Inj (=) (=) VString.
Proof. by intros s1 s2 [= ->]. Qed.

(** The loop of [NestedStringMap] gives a map exactly for a map of strings. *)
Lemma NestedStringMap_loop_found (m : gmap string jvalue) (strMap : gmap string string) :
  NestedStringMap_loop m = Some strMap ↔ m = VString <$> strMap.
Proof.
  revert strMap. unfold NestedStringMap_loop.
  apply (map_fold_weak_ind
           (λ r m, ∀ strMap : gmap string string, r = Some strMap ↔ m = VString <$> strMap)).
  - intros strMap. split.
    + intros [= <-]. by rewrite fmap_empty.
    + intros H. symmetry in H. apply fmap_empty_inv in H. by subst.
  - intros i x m0 r Hi IH strMap.
    destruct r as [sm0 |].
    + pose proof (proj1 (IH sm0) eq_refl) as ->.
      destruct x as [| s | | | | |];
        try (split; [done |]; intros H;
             apply (f_equal (.!! i)) in H;
             rewrite lookup_insert_eq, lookup_fmap in H;
             by destruct (strMap !! i)).
      split.
      * intros [= <-]. by rewrite fmap_insert.
      * rewrite <- fmap_insert. intros H.
        apply (map_fmap_inj _ VString_inj) in H. by subst.
    + assert (Hno : ∀ strMap', <[i := x]> m0 ≠ VString <$> strMap').
      { intros strMap' H.
        assert (Hm : m0 = VString <$> delete i strMap').
        { rewrite fmap_delete, <- H. by rewrite delete_insert_id. }
        by pose proof (proj2 (IH _) Hm). }
      split; [by destruct x | intros H; by destruct (Hno strMap)].
Qed.

(** X11: a map of strings set with [SetNestedStringMap] is read back by
    [NestedStringMap]. *)
Theorem string_map_roundtrip (obj obj' : gmap string jvalue) (value : gmap string string)
    (fields : list string) :
  SetNestedStringMap obj value fields = Returns (obj', true) →
  NestedStringMap obj' fields = (value, true).
Proof.
  unfold SetNestedStringMap. rewrite SetNestedStringMap_fold.
  intros Hl%setNestedFieldNoCopy_lookup.
  unfold NestedStringMap, nestedMapNoCopy. rewrite Hl.
  by rewrite (proj2 (NestedStringMap_loop_found _ value) eq_refl).
Qed.

Lemma string_map_roundtrip_witness :
  NestedStringMap
    {[ "metadata" := VMap {[ "labels" := VMap {[ "app" := VString "web";
                                                "tier" := VString "front" ]} ]} ]}
    ["metadata"; "labels"]
  = ({[ "app" := "web"; "tier" := "front" ]}, true).
Proof.
  apply (string_map_roundtrip ∅). vm_compute. reflexivity.
Defined.

(** X12: a slice set with [SetNestedSlice] is read back by [NestedSlice], and a
    map set with [SetNestedMap] is read back by [NestedMap]. *)
Theorem slice_map_roundtrip (obj obj' : gmap string jvalue) (fields : list string) :
  (∀ value, SetNestedSlice obj value fields = Returns (obj', true) →
            NestedSlice obj' fields = (value, true)) ∧
  (∀ value, SetNestedMap obj value fields = Returns (obj', true) →
            NestedMap obj' fields = (value, true)).
Proof.
  split; intros value; unfold SetNestedSlice, SetNestedMap, SetNestedField, SetNestedField_with;
    rewrite DeepCopyJSONValue_eq; intros Hl%setNestedFieldNoCopy_lookup.
  - unfold NestedSlice. rewrite Hl. f_equal.
    pose proof (DeepCopyJSONValue_eq (VSlice value)) as H.
    rewrite DeepCopyJSONValue_VSlice in H. by injection H.
  - unfold NestedMap, nestedMapNoCopy. rewrite Hl. by rewrite DeepCopyJSON_eq.
Qed.

Lemma slice_map_roundtrip_witness :
  NestedSlice {[ "items" := VSlice [VInt64 1; VMap ∅] ]} ["items"]
  = ([VInt64 1; VMap ∅], true).
Proof.
  apply (proj1 (slice_map_roundtrip ∅ _ ["items"])). vm_compute. reflexivity.
Defined.

(** X13: [NestedStringMap] finds a map of strings exactly when the value at the
    path is a mapping whose values are those strings; it finds nothing, and
    returns no entry, as soon as one value of the mapping is not a string. *)
Theorem NestedStringMap_all_or_nothing (obj : gmap string jvalue) (fields : list string) :
  (∀ strMap, NestedStringMap obj fields = (strMap, true) ↔
             nestedFieldNoCopy obj fields = (VMap (VString <$> strMap), true)) ∧
  (∀ strMap, NestedStringMap obj fields = (strMap, false) → strMap = ∅) ∧
  (∀ m k v, nestedFieldNoCopy obj fields = (VMap m, true) →
            m !! k = Some v → is_string v = false →
            NestedStringMap obj fields = (∅, false)).
Proof.
  unfold NestedStringMap, nestedMapNoCopy.
  destruct (nestedFieldNoCopy obj fields) as [v found].
  split; [| split].
  - intros strMap. split.
    + destruct v as [| | | | | | m], found; try done.
      destruct (NestedStringMap_loop m) as [sm |] eqn:Hloop; [| done].
      intros [= <-]. by apply NestedStringMap_loop_found in Hloop as ->.
    + intros [= -> ->].
      by rewrite (proj2 (NestedStringMap_loop_found _ strMap) eq_refl).
  - intros strMap. destruct v as [| | | | | | m], found;
      try (intros [= ?]; by subst).
    destruct (NestedStringMap_loop m); [done | intros [= ?]; by subst].
  - intros m k x [= -> ->] Hk Hx.
    destruct (NestedStringMap_loop m) as [sm |] eqn:Hloop; [| done].
    apply NestedStringMap_loop_found in Hloop as ->.
    rewrite lookup_fmap in Hk.
    destruct (sm !! k); cbn in Hk; [injection Hk as <- | done]. done.
Qed.

(** ** Owner references *)

Lemma NestedBool_single (obj : gmap string jvalue) (field : string) :
  NestedBool obj [field]
  = match obj !! field with Some (VBool b) => (b, true) | _ => (false, false) end.
Proof.
  unfold NestedBool, nestedFieldNoCopy. cbn [nestedFieldNoCopy_from].
  destruct (obj !! field) as [[] |]; reflexivity.
Qed.

(** X14: in the extracted owner reference a flag is given exactly when its key
    holds a bool, so that a missing flag is not read as false; and only the six
    keys of an owner reference are read. *)
Theorem extractOwnerReference_flags (v : gmap string jvalue) :
  (∀ b, Owner_Controller (extractOwnerReference v) = Some b ↔
        v !! "controller" = Some (VBool b)) ∧
  (∀ b, Owner_BlockOwnerDeletion (extractOwnerReference v) = Some b ↔
        v !! "blockOwnerDeletion" = Some (VBool b)) ∧
  (∀ k x, k ∉ ["kind"; "name"; "apiVersion"; "uid"; "controller"; "blockOwnerDeletion"] →
          extractOwnerReference (<[k := x]> v) = extractOwnerReference v).
Proof.
  split; [| split].
  - intros b. unfold extractOwnerReference. cbn [Owner_Controller].
    rewrite NestedBool_single.
    destruct (v !! "controller") as [[] |]; split; intros [= ?]; by subst.
  - intros b. unfold extractOwnerReference. cbn [Owner_BlockOwnerDeletion].
    rewrite NestedBool_single.
    destruct (v !! "blockOwnerDeletion") as [[] |]; split; intros [= ?]; by subst.
  - intros k x Hk. unfold extractOwnerReference.
    rewrite !NestedBool_single, !getNestedString_single.
    rewrite !lookup_insert_ne; [done | | | | | |]; intros ->; apply Hk;
      set_solver.
Qed.

(** An owner reference without the key "controller" and with
    "blockOwnerDeletion" false. *)
Example extractOwnerReference_sample :
  extractOwnerReference
    {[ "kind" := VString "ReplicaSet"; "name" := VString "web"; "uid" := VInt64 7;
       "blockOwnerDeletion" := VBool false ]}
  = {| Owner_APIVersion := EmptyString; Owner_Kind := "ReplicaSet";
       Owner_Name := "web"; Owner_UID := EmptyString;
       Owner_Controller := None; Owner_BlockOwnerDeletion := Some false |}.
Proof. vm_compute. reflexivity. Qed.

(** * Further properties of the codec *)

Section CodecMore.
Context {Other Writer : Type} {ext : External Other Writer}.

(** The loop over the items, stopped by an error: the items before the one
    that does not decode are stored, that one and the ones after it are not. *)
Lemma decodeToList_items_error (dItems : list bytes) (itemKind listAPIVersion : string)
    (items items' : list Unstructured) (err : error) :
  decodeToList_items dItems itemKind listAPIVersion items = Returns (items', Some err) →
  ∃ n ms bad,
    Forall2 (λ i m, Unmarshal_map i ∅ = (m, None)) (take n dItems) ms ∧
    dItems !! n = Some bad ∧
    (Unmarshal_map bad ∅).2 = Some err ∧
    items' = items ++ (infer_item itemKind listAPIVersion <$> ms).
Proof.
  revert items. induction dItems as [| i dItems IH]; intros items; [done |].
  cbn [decodeToList_items]. unfold decodeToUnstructured.
  destruct (Unmarshal_map i ∅) as [m [e |]] eqn:Hm.
  - intros [= <- <-]. exists 0, [], i. rewrite Hm.
    repeat split; [constructor | by rewrite app_nil_r].
  - rewrite infer_step. cbn [mbind outcome_bind Object].
    intros (n & ms & bad & Hms & Hbad & Herr & ->)%IH.
    exists (S n), (m :: ms), bad. repeat split; try done.
    + cbn [take]. by constructor.
    + by rewrite <- app_assoc.
Qed.

(** X15: when an item of a list does not decode, [decodeToList] returns that
    item's error; the list then has its map without the key "items" and, as
    items, the items before the failing one, each as after a decoding without
    error. *)
Theorem decodeToList_item_error (data : bytes) (list list' : UnstructuredList)
    (dItems : Datatypes.list bytes) (obj : gmap string jvalue) (err : error) :
  Unmarshal_decodeList data = inr dItems →
  Unmarshal_map data (List_Object list) = (obj, None) →
  decodeToList data list = Returns (list', Some err) →
  List_Object list' = delete "items" obj ∧
  ∃ n ms bad,
    Forall2 (λ i m, Unmarshal_map i ∅ = (m, None)) (take n dItems) ms ∧
    dItems !! n = Some bad ∧
    (Unmarshal_map bad ∅).2 = Some err ∧
    Items list'
    = infer_item (TrimSuffix (GetKind obj) "List") (GetAPIVersion obj) <$> ms.
Proof.
  intros Hd Hm. unfold decodeToList. rewrite Hd, Hm.
  destruct (decodeToList_items dItems (TrimSuffix (GetKind obj) "List")
              (GetAPIVersion obj) []) as [[items' e] | p] eqn:Hitems; [| done].
  cbn [mbind outcome_bind mret outcome_ret]. intros [= <- ->].
  split; [reflexivity |]. by apply decodeToList_items_error in Hitems.
Qed.

(** X16: decoding into a list that has items already replaces them: the
    result does not depend on the items the list had. *)
Theorem decodeToList_replaces_items (data : bytes) (list list' : UnstructuredList)
    (items0 : Datatypes.list Unstructured) :
  decodeToList data list = Returns (list', None) →
  decodeToList data {| List_Object := List_Object list; Items := items0 |}
  = Returns (list', None).
Proof.
  unfold decodeToList. cbn [List_Object].
  destruct (Unmarshal_decodeList data) as [e | dItems]; [done |].
  by destruct (Unmarshal_map data (List_Object list)) as [obj [e |]].
Qed.

(** X17: encoding a list that was decoded without error leaves the list as it
    is and serializes the map that the payload was unmarshalled to, with only
    the key "items" changed: it holds the maps of the items, as they are after
    the inference of kind and apiVersion. *)
Theorem Encode_decoded_list (data : bytes) (list list' : UnstructuredList)
    (obj : gmap string jvalue) (w : Writer) :
  Unmarshal_map data (List_Object list) = (obj, None) →
  decodeToList data list = Returns (list', None) →
  Encode (PUnstructuredList list') w
  = (PUnstructuredList list',
     Encode_map (<["items" := VSlice (item_objects (Items list'))]> obj) w).
Proof.
  intros Hm (dItems & obj' & ms & _ & Hm' & _ & Hobj & _)%decodeToList_success.
  rewrite Hm in Hm'. injection Hm' as <-.
  rewrite Encode_list_returns, Hobj. by rewrite insert_delete_eq.
Qed.

(** X18: decoding into a dynamic object replaces its map: without error the
    new state does not depend on the state before, and with an error the object
    is as it was. *)
Theorem decodeInto_Unstructured (data : bytes) (x : Unstructured) :
  ∃ r, decodeInto data (PUnstructured x) = Returns r ∧
       (is_Some r.2 → r.1 = PUnstructured x) ∧
       (r.2 = None →
        r.1 = PUnstructured {| Object := (Unmarshal_map data ∅).1 |} ∧
        ∀ x', decodeInto data (PUnstructured x') = Returns r).
Proof.
  cbn [decodeInto]. unfold decodeToUnstructured.
  destruct (Unmarshal_map data ∅) as [m [e |]]; eexists; (split; [reflexivity |]).
  - split; [done | by intros [=]].
  - split; [by intros [? [=]] | done].
Qed.

Lemma Decode_parse_into (data : bytes) (obj o into : option (runtime_Object Other))
    (err : option error) :
  Decode_parse data obj = Returns (o, err, into) →
  (is_Some obj → into = o ∧ is_Some o) ∧ (obj = None → into = None).
Proof.
  unfold Decode_parse. destruct obj as [o0 |].
  - destruct (decodeInto data o0) as [r | p]; [| done].
    cbn [mbind outcome_bind mret outcome_ret]. intros [= <- _ <-].
    split; [by intros _ | done].
  - destruct (decode data) as [[e | o' e] | p]; [| | done];
      cbn [mbind outcome_bind mret outcome_ret]; intros [= _ _ <-];
      (split; [by intros [? ?] | done]).
Qed.

(** X19: the results of [Decode] go together in three ways only.  Without
    error: the object, which is the state of the object that was given, if one
    was, and its descriptor, whose kind is not empty.  With an error and no
    descriptor: no object.  With an error and a descriptor: no object, and the
    error is the missing-kind error for the payload. *)
Theorem Decode_result_shape (data : bytes) (obj : option (runtime_Object Other))
    (r : DecodeResult Other) :
  Decode data obj = Returns r →
  (ret_err r = None →
     ∃ o, ret_obj r = Some o ∧
          ret_gvk r = Some (Object_GroupVersionKind o) ∧
          Kind (Object_GroupVersionKind o) ≠ EmptyString ∧
          (is_Some obj → into_after r = Some o)) ∧
  (is_Some (ret_err r) → ret_obj r = None) ∧
  (is_Some (ret_err r) → is_Some (ret_gvk r) →
     ret_err r = Some (MissingKindErr (String.string_of_list_byte data))) ∧
  (obj = None → into_after r = None).
Proof.
  unfold Decode.
  destruct (Decode_parse data obj) as [[[o err] into] | p] eqn:Hp; [| done].
  apply Decode_parse_into in Hp as [Hsome Hnone].
  cbn [mbind outcome_bind].
  destruct o as [o |], err as [err |]; try done;
    try (intros [= <-]; cbn; repeat split; try done; by intros [? [=]]).
  destruct (String.length (Kind (Object_GroupVersionKind o)) =? 0) eqn:Hk;
    intros [= <-]; cbn [ret_obj ret_gvk ret_err into_after].
  - repeat split; try done.
  - repeat split; try done; try by intros [? [=]].
    exists o. repeat split.
    + intros Hempty. rewrite Hempty in Hk. done.
    + intros Hobj. by destruct (Hsome Hobj) as [-> _].
Qed.

(** X20: [Decode] into a [runtime.VersionedObjects], without error: the
    object then holds one object, a dynamic object or a dynamic list, whatever
    it held before, and the descriptor returned is that of this object. *)
Theorem Decode_VersionedObjects (data : bytes) (Objects : Datatypes.list (runtime_Object Other))
    (r : DecodeResult Other) :
  Decode data (Some (PVersionedObjects Objects)) = Returns r →
  ret_err r = None →
  ∃ o, ret_obj r = Some (PVersionedObjects [o]) ∧
       into_after r = Some (PVersionedObjects [o]) ∧
       ret_gvk r = Some (Object_GroupVersionKind o) ∧
       ((∃ u, o = PUnstructured u) ∨ (∃ l, o = PUnstructuredList l)) ∧
       decode data = Returns (ObjectWith o None).
Proof.
  unfold Decode, Decode_parse. cbn [decodeInto]. unfold decode.
  destruct (Unmarshal_detector data) as [e | [items |]].
  - cbn. by intros [= <-].
  - destruct (decodeToList data {| List_Object := ∅; Items := [] |})
      as [[l [e |]] | p]; [| | done].
    + cbn. by intros [= <-].
    + cbn [mbind outcome_bind mret outcome_ret fst snd].
      cbn [Object_GroupVersionKind].
      destruct (String.length (Kind (Unstructured_GroupVersionKind (List_Object l))) =? 0);
        intros [= <-]; [done |]. intros _.
      exists (PUnstructuredList l). repeat split. right. by eexists.
  - destruct (decodeToUnstructured data {| Object := ∅ |}) as [u [e |]].
    + cbn. by intros [= <-].
    + cbn [mbind outcome_bind mret outcome_ret fst snd].
      cbn [Object_GroupVersionKind].
      destruct (String.length (Kind (Unstructured_GroupVersionKind (Object u))) =? 0);
        intros [= <-]; [done |]. intros _.
      exists (PUnstructured u). repeat split. left. by eexists.
Qed.
End CodecMore.

Lemma decodeToList_mixed_sample :
  decodeToList (ext := sample_External_mixed) payload_mixed_list
    {| List_Object := ∅; Items := [] |}
  = Returns
      ({| List_Object := {[ "kind" := VString "PodList"; "apiVersion" := VString "v1" ]};
          Items := [ {| Object := {[ "kind" := VString "Pod";
                                     "apiVersion" := VString "v1";
                                     "metadata" := VMap {[ "name" := VString "a" ]} ]} |} ] |},
       Some (ExternalError "cannot unmarshal number into map")).
Proof. vm_compute. reflexivity. Qed.

Lemma decodeToList_item_error_witness :
  ∃ n ms bad,
    Forall2 (λ i m, Unmarshal_map (External := sample_External_mixed) i ∅ = (m, None))
      (take n [payload_a; payload_number]) ms ∧
    [payload_a; payload_number] !! n = Some bad ∧
    (Unmarshal_map (External := sample_External_mixed) bad ∅).2
    = Some (ExternalError "cannot unmarshal number into map") ∧
    [ {| Object := {[ "kind" := VString "Pod"; "apiVersion" := VString "v1";
                      "metadata" := VMap {[ "name" := VString "a" ]} ]} |} ]
    = infer_item (TrimSuffix (GetKind object_mixed_list) "List")
        (GetAPIVersion object_mixed_list) <$> ms.
Proof.
  refine (proj2 (decodeToList_item_error (ext := sample_External_mixed)
                   payload_mixed_list {| List_Object := ∅; Items := [] |} _
                   [payload_a; payload_number] object_mixed_list _ _ _
                   decodeToList_mixed_sample));
    vm_compute; reflexivity.
Defined.

Lemma decodeToList_replaces_items_witness :
  decodeToList (ext := sample_External) payload_list
    {| List_Object := ∅; Items := [ {| Object := object_b |} ] |}
  = Returns
      ({| List_Object := {[ "kind" := VString "PodList"; "apiVersion" := VString "v1" ]};
          Items := [ {| Object := {[ "kind" := VString "Pod";
                                     "apiVersion" := VString "v1";
                                     "metadata" := VMap {[ "name" := VString "a" ]} ]} |};
                     {| Object := object_b |} ] |},
       None).
Proof.
  exact (decodeToList_replaces_items (ext := sample_External) payload_list
           {| List_Object := ∅; Items := [] |} _ [ {| Object := object_b |} ]
           decodeToList_sample).
Defined.

Lemma Encode_decoded_list_witness :
  Encode (ext := sample_External)
    (PUnstructuredList
       {| List_Object := {[ "kind" := VString "PodList"; "apiVersion" := VString "v1" ]};
          Items := [ {| Object := {[ "kind" := VString "Pod";
                                     "apiVersion" := VString "v1";
                                     "metadata" := VMap {[ "name" := VString "a" ]} ]} |};
                     {| Object := object_b |} ] |})
    []
  = (PUnstructuredList
       {| List_Object := {[ "kind" := VString "PodList"; "apiVersion" := VString "v1" ]};
          Items := [ {| Object := {[ "kind" := VString "Pod";
                                     "apiVersion" := VString "v1";
                                     "metadata" := VMap {[ "name" := VString "a" ]} ]} |};
                     {| Object := object_b |} ] |},
     Encode_map (External := sample_External)
       (<["items" := VSlice [ VMap {[ "kind" := VString "Pod";
                                      "apiVersion" := VString "v1";
                                      "metadata" := VMap {[ "name" := VString "a" ]} ]};
                              VMap object_b ]]> object_list)
       []).
Proof.
  refine (Encode_decoded_list (ext := sample_External) payload_list
            {| List_Object := ∅; Items := [] |} _ object_list [] _
            decodeToList_sample).
  vm_compute. reflexivity.
Defined.

Lemma Decode_sample_b :
  Decode (ext := sample_External) payload_b None
  = Returns {| ret_obj := Some (PUnstructured {| Object := object_b |});
               ret_gvk := Some {| Group := EmptyString; Version := EmptyString;
                                  Kind := "Node" |};
               ret_err := None;
               into_after := None |}.
Proof. vm_compute. reflexivity. Qed.

Lemma Decode_result_shape_witness :
  ∃ o, Some (PUnstructured {| Object := object_b |}) = Some o ∧
       Some {| Group := EmptyString; Version := EmptyString; Kind := "Node" |}
       = Some (Object_GroupVersionKind (ext := sample_External) o) ∧
       Kind (Object_GroupVersionKind (ext := sample_External) o) ≠ EmptyString ∧
       (is_Some (None : option (runtime_Object Empty_set)) →
        (None : option (runtime_Object Empty_set)) = Some o).
Proof.
  exact (proj1 (Decode_result_shape (ext := sample_External) payload_b None _
                  Decode_sample_b) eq_refl).
Defined.

Lemma Decode_VersionedObjects_sample :
  Decode (ext := sample_External) payload_b
    (Some (PVersionedObjects [PUnstructured {| Object := object_a |};
                              PUnstructured {| Object := ∅ |}]))
  = Returns {| ret_obj := Some (PVersionedObjects [PUnstructured {| Object := object_b |}]);
               ret_gvk := Some {| Group := EmptyString; Version := EmptyString;
                                  Kind := "Node" |};
               ret_err := None;
               into_after :=
                 Some (PVersionedObjects [PUnstructured {| Object := object_b |}]) |}.
Proof. vm_compute. reflexivity. Qed.

Lemma Decode_VersionedObjects_witness :
  ∃ o, Some (PVersionedObjects [PUnstructured {| Object := object_b |}])
       = Some (PVersionedObjects [o]) ∧
       Some (PVersionedObjects [PUnstructured {| Object := object_b |}])
       = Some (PVersionedObjects [o]) ∧
       Some {| Group := EmptyString; Version := EmptyString; Kind := "Node" |}
       = Some (Object_GroupVersionKind (ext := sample_External) o) ∧
       ((∃ u, o = PUnstructured u) ∨ (∃ l, o = PUnstructuredList l)) ∧
       decode (ext := sample_External) payload_b = Returns (ObjectWith o None).
Proof.
  exact (Decode_VersionedObjects (ext := sample_External) payload_b _ _
           Decode_VersionedObjects_sample eq_refl).
Defined.

(** ** Further properties of the converter *)

(** X21: a conversion that succeeds changes the field [Object] of the output
    and nothing else: the other objects, the set of objects and the maps are
    as before; converting an object into itself changes nothing. *)
Theorem Convert_frame (h h' : heap) (a b : loc) (context : iface) :
  Convert h (IUnstructured (Some a)) (IUnstructured (Some b)) context
  = Returns (h', None) →
  (∀ c, c ≠ b → objects h' !! c = objects h !! c) ∧
  dom (objects h') = dom (objects h) ∧
  maps h' = maps h ∧
  (a = b → h' = h).
Proof.
  unfold Convert. cbn [as_Unstructured load_Object store_Object].
  destruct (objects h !! a) as [r |] eqn:Ha; [| done].
  cbn [mbind outcome_bind].
  destruct (objects h !! b) as [r' |] eqn:Hb; [| done].
  cbn [mbind outcome_bind mret outcome_ret]. intros [= <-]. cbn [objects maps].
  repeat split.
  - intros c Hc. by rewrite lookup_insert_ne.
  - rewrite dom_insert_L. apply subseteq_union_1_L, singleton_subseteq_l.
    by apply elem_of_dom_2 in Hb.
  - intros <-. destruct h as [objs ms]. cbn [objects maps] in *.
    by rewrite insert_id.
Qed.

Lemma Convert_frame_witness :
  objects {| objects := {[ 1%positive := Some 10%positive;
                           2%positive := Some 10%positive ]};
             maps := maps sample_heap |} !! 1%positive
  = objects sample_heap !! 1%positive.
Proof.
  refine (proj1 (Convert_frame sample_heap _ 1%positive 2%positive INil _)
            1%positive _); [vm_compute; reflexivity | discriminate].
Defined.
